(** * indexeddb-fast-search: the range cursor executor, the schema
      reconciler, the connection manager and the promise adapters

    A shallow embedding of [src/src/core.ts], [src/src/db.ts] and of the
    package entry point [src/unnamed/part_005] (the [src/index.ts] of the
    build configuration), which has a [FastIndexedDB] class of its own.  The storage engine (IndexedDB) is an
    external collaborator: the parts of its contract the code relies on are
    given in [IDB] (cursors), [Meta] (structural metadata and the upgrade
    transaction) and as records of responses ([Core.Writes], [Core.Reads]);
    [Db], [Conn], [Core] and [Entry] are translated from the source. *)

From stdpp Require Import gmap strings list fin_maps.
From Stdlib Require Import ZArith Lia.


(** ** Promises

    A promise is pending until it is settled once, by [resolve] or [reject];
    later settlements are ignored. *)

Inductive promise (A E : Type) : Type :=
| Pending
| Resolved (a : A)
| Rejected (e : E).
Arguments Pending {A E}.
Arguments Resolved {A E} a.
Arguments Rejected {A E} e.

Definition resolve {A E} (a : A) (p : promise A E) : promise A E :=
  match p with Pending => Resolved a | _ => p end.

Definition reject {A E} (e : E) (p : promise A E) : promise A E :=
  match p with Pending => Rejected e | _ => p end.

(** ** The storage engine's contract *)

Module IDB.

(** A JavaScript number used as a count: a natural number or [Infinity].
    Negative, fractional and NaN values are outside the model. *)
Inductive num : Type := Fin (n : nat) | Infinity.

(** [a < b] for a counter [a]. *)
Definition lt (a : nat) (b : num) : bool :=
  match b with Fin n => Nat.ltb a n | Infinity => true end.

(** [a >= b] for a counter [a]. *)
Definition ge (a : nat) (b : num) : bool :=
  match b with Fin n => Nat.leb n a | Infinity => false end.

(** Truthiness of an optional number: [undefined] and [0] are falsy. *)
Definition truthy (x : option num) : bool :=
  match x with
  | None => false
  | Some (Fin 0) => false
  | Some _ => true
  end.

(** Arithmetic on possibly infinite bounds, for stating what a scan
    returns: [b - a], [a + b], [n <= b], and the slices [l.slice(0, b)] and
    [l.slice(b)]. *)
Definition num_sub (b : num) (a : nat) : num :=
  match b with Fin n => Fin (n - a) | Infinity => Infinity end.

Definition num_add (x y : num) : num :=
  match x, y with Fin a, Fin b => Fin (a + b) | _, _ => Infinity end.

Definition num_le (n : nat) (b : num) : bool :=
  match b with Fin m => Nat.leb n m | Infinity => true end.

Definition num_take {T} (b : num) (l : list T) : list T :=
  match b with Fin n => take n l | Infinity => l end.

Definition num_drop {T} (b : num) (l : list T) : list T :=
  match b with Fin n => drop n l | Infinity => [] end.

Inductive IDBCursorDirection : Type := next | nextunique | prev | prevunique.

(** What a cursor request delivers: one success event per entry, in the
    order of the requested direction, and then either a success event with
    a null cursor ([ending = None]) or an error event.  An entry is
    delivered only after the handler called [continue] on the previous
    one. *)
Record feed (T E : Type) : Type := Feed { values : list T; ending : option E }.
Arguments Feed {T E} values ending.
Arguments values {T E} f.
Arguments ending {T E} f.

(** The events of a cursor request, as the handlers see them. *)
Inductive cursor_event (T E : Type) : Type :=
| OnSuccess (cursor : option T)
| OnError (e : E).
Arguments OnSuccess {T E} cursor.
Arguments OnError {T E} e.

(** One database as the read path sees it: [index_of store index] is the
    outcome of [getTransaction], [objectStore] and [index] (an exception of
    any of them, or the index), [scan] the entries of an index for a query
    and a direction. *)
Record Engine (T Q E Idx : Type) : Type := {
  index_of : string → string → E + Idx;
  scan : Idx → option Q → IDBCursorDirection → feed T E
}.
Arguments index_of {T Q E Idx} e storeName indexName.
Arguments scan {T Q E Idx} e idx query direction.

(** [index.openCursor(query, direction)]: an absent query is the whole
    index, an absent direction is ['next']. *)
Definition openCursor {T Q E Idx} (eng : Engine T Q E Idx) (idx : Idx)
    (query : option Q) (direction : option IDBCursorDirection) : feed T E :=
  scan eng idx query (default next direction).

End IDB.

(** The [options] argument of [findByIndexRange]; every field may be absent. *)
Record RangeOptions (Q : Type) : Type := {
  query : option Q;
  direction : option IDB.IDBCursorDirection;
  limit : option IDB.num;
  offset : option IDB.num
}.
Arguments query {Q} r.
Arguments direction {Q} r.
Arguments limit {Q} r.
Arguments offset {Q} r.

Definition no_options {Q} : RangeOptions Q :=
  {| query := None; direction := None; limit := None; offset := None |}.

(** What a cursor handler does with one event: ask for the next entry
    ([cursor.continue()]) or settle the promise. *)
Inductive cursor_step (S T E : Type) : Type :=
| Continue (s : S)
| Settle (p : promise (list T) E).
Arguments Continue {S T E} s.
Arguments Settle {S T E} p.

(** The engine driving a cursor request: it delivers the entries one by one
    while the handler continues, and the final event when they run out.  The
    result is the list of delivered events and the state of the promise. *)
Section Drive.
Context {S T E : Type}.
Variable onsuccess : S → option T → cursor_step S T E.
Variable onerror : E → promise (list T) E.

Fixpoint drive (s : S) (vs : list T) (fin : option E)
    : list (IDB.cursor_event T E) * promise (list T) E :=
  match vs with
  | v :: rest =>
      match onsuccess s (Some v) with
      | Continue s' =>
          let '(tr, p) := drive s' rest fin in (IDB.OnSuccess (Some v) :: tr, p)
      | Settle p => ([IDB.OnSuccess (Some v)], p)
      end
  | [] =>
      match fin with
      | None =>
          match onsuccess s None with
          | Continue _ => ([IDB.OnSuccess None], Pending)
          | Settle p => ([IDB.OnSuccess None], p)
          end
      | Some e => ([IDB.OnError e], onerror e)
      end
  end.
End Drive.

(** ** Schema declarations ([StoreSchema], [IndexSchema] of [db.ts]) *)

(** [string | string[]] *)
Inductive KeyPath : Type := KPString (s : string) | KPArray (l : list string).

(** [IDBIndexParameters], its absent members already defaulted to [false]. *)
Record IDBIndexParameters : Type := { unique : bool; multiEntry : bool }.

Module IndexSchema.
Record t : Type := {
  name : string;
  keyPath : KeyPath;
  options : option IDBIndexParameters
}.
End IndexSchema.

Module StoreSchema.
Record t : Type := {
  name : string;
  keyPath : option KeyPath;
  autoIncrement : option bool;
  indexes : option (list IndexSchema.t)
}.

(** The index names a container spec declares; none when it has no list. *)
Definition index_names (s : t) : list string :=
  IndexSchema.name <$> default [] (indexes s).
End StoreSchema.

(** ** The engine's structural metadata and its upgrade transaction *)

Module Meta.

Record IDBIndex : Type := {
  ix_keyPath : KeyPath;
  ix_unique : bool;
  ix_multiEntry : bool
}.

Record IDBObjectStore : Type := {
  os_keyPath : option KeyPath;
  os_autoIncrement : bool;
  os_indexes : gmap string IDBIndex
}.

(** A store whose set of indexes was changed; key path and auto-increment
    flag of an existing store never change. *)
Definition with_indexes (os : IDBObjectStore) (im : gmap string IDBIndex)
    : IDBObjectStore :=
  {| os_keyPath := os_keyPath os;
     os_autoIncrement := os_autoIncrement os;
     os_indexes := im |}.

(** A store as [createObjectStore] makes it: no index yet. *)
Definition new_store (keyPath : option KeyPath) (autoIncrement : option bool)
    : IDBObjectStore :=
  {| os_keyPath := keyPath;
     os_autoIncrement := default false autoIncrement;
     os_indexes := ∅ |}.

(** What is persisted under one database name. *)
Record IDBDatabase : Type := {
  version : nat;
  objectStores : gmap string IDBObjectStore
}.

(** A database that was never opened. *)
Definition fresh : IDBDatabase := {| version := 0; objectStores := ∅ |}.

Record DOMException : Type := { exn_name : string; message : string }.

Definition ConstraintError : DOMException :=
  {| exn_name := "ConstraintError"; message := "An object with this name already exists" |}.
Definition NotFoundError : DOMException :=
  {| exn_name := "NotFoundError"; message := "No object with this name exists" |}.
Definition InvalidAccessError : DOMException :=
  {| exn_name := "InvalidAccessError"; message := "The key path does not fit the options" |}.
Definition SyntaxError : DOMException :=
  {| exn_name := "SyntaxError"; message := "The key path is not valid" |}.
Definition InvalidStateError : DOMException :=
  {| exn_name := "InvalidStateError"; message := "The object store was deleted" |}.

(** The upgrade transaction: the containers as changed so far, and whether
    [abort] was called.  The persisted database is replaced only when the
    transaction commits. *)
Record tx : Type := Tx { stores : gmap string IDBObjectStore; aborted : bool }.

(** Code running inside the transaction: it changes the transaction and
    returns a value or throws. *)
Definition M (A : Type) : Type := tx → (DOMException + A) * tx.

Definition ret {A} (a : A) : M A := λ t, (inr a, t).
Definition bind {A B} (m : M A) (f : A → M B) : M B :=
  λ t, match m t with
       | (inr a, t') => f a t'
       | (inl e, t') => (inl e, t')
       end.

(** [l.forEach(f)]: stops at the first exception. *)
Fixpoint forEach {A} (l : list A) (f : A → M unit) : M unit :=
  match l with
  | [] => ret ()
  | x :: l' => bind (f x) (λ _, forEach l' f)
  end.

(** [m] started in a transaction satisfying [I] leaves one satisfying [I],
    whether it returns or throws, and what it returns satisfies [Q]. *)
Definition triple {A} (I : tx → Prop) (m : M A) (Q : A → Prop) : Prop :=
  ∀ t, I t → I (m t).2 ∧ ∀ a, (m t).1 = inr a → Q a.


(** Store [c] exists and has index [n] with definition [ix]. *)
Definition has_index (c n : string) (ix : IDBIndex) (t : tx) : Prop :=
  ∃ os, stores t !! c = Some os ∧ os_indexes os !! n = Some ix.

(** [l.includes(x)] *)
Definition includes (l : list string) (x : string) : bool := bool_decide (x ∈ l).

Section Ops.
(** Which key paths the engine accepts is its own business. *)
Variable valid_key_path : KeyPath → bool.

Definition is_sequence_or_empty (k : option KeyPath) : bool :=
  match k with
  | Some (KPString s) => bool_decide (s = ""%string)
  | Some (KPArray _) => true
  | None => false
  end.

(** [Array.from(db.objectStoreNames)].  The engine lists the names sorted;
    here they come in the order of the map, each once.  The loops over them
    only delete, in any order with the same result. *)
Definition objectStoreNames : M (list string) :=
  λ t, (inr (elements (dom (stores t))), t).

Definition deleteObjectStore (name : string) : M unit :=
  λ t, match stores t !! name with
       | None => (inl NotFoundError, t)
       | Some _ => (inr (), Tx (delete name (stores t)) (aborted t))
       end.

(** [db.createObjectStore(name, {keyPath, autoIncrement})]; the new store is
    referred to by its name. *)
Definition createObjectStore (name : string) (keyPath : option KeyPath)
    (autoIncrement : option bool) : M string :=
  λ t, if negb (from_option valid_key_path true keyPath) then (inl SyntaxError, t)
       else if bool_decide (is_Some (stores t !! name)) then (inl ConstraintError, t)
       else if default false autoIncrement && is_sequence_or_empty keyPath
            then (inl InvalidAccessError, t)
       else (inr name,
             Tx (<[name := new_store keyPath autoIncrement]> (stores t)) (aborted t)).

(** [transaction.objectStore(name)] *)
Definition objectStore (name : string) : M string :=
  λ t, match stores t !! name with
       | None => (inl NotFoundError, t)
       | Some _ => (inr name, t)
       end.

(** [Array.from(store.indexNames)] *)
Definition indexNames (store : string) : M (list string) :=
  λ t, match stores t !! store with
       | None => (inl InvalidStateError, t)
       | Some os => (inr (elements (dom (os_indexes os))), t)
       end.

Definition deleteIndex (store indexName : string) : M unit :=
  λ t, match stores t !! store with
       | None => (inl InvalidStateError, t)
       | Some os =>
           match os_indexes os !! indexName with
           | None => (inl NotFoundError, t)
           | Some _ =>
               (inr (),
                Tx (<[store := with_indexes os (delete indexName (os_indexes os))]>
                      (stores t)) (aborted t))
           end
       end.

Definition is_sequence (k : KeyPath) : bool :=
  match k with KPArray _ => true | KPString _ => false end.

(** The index an [IndexSchema] asks for. *)
Definition index_of_schema (keyPath : KeyPath) (options : option IDBIndexParameters)
    : IDBIndex :=
  {| ix_keyPath := keyPath;
     ix_unique := from_option unique false options;
     ix_multiEntry := from_option multiEntry false options |}.

Definition createIndex (store indexName : string) (keyPath : KeyPath)
    (options : option IDBIndexParameters) : M unit :=
  λ t, match stores t !! store with
       | None => (inl InvalidStateError, t)
       | Some os =>
           if bool_decide (is_Some (os_indexes os !! indexName))
           then (inl ConstraintError, t)
           else if negb (valid_key_path keyPath) then (inl SyntaxError, t)
           else if is_sequence keyPath && from_option multiEntry false options
                then (inl InvalidAccessError, t)
           else
             (inr (),
              Tx (<[store := with_indexes os
                               (<[indexName := index_of_schema keyPath options]>
                                  (os_indexes os))]>
                    (stores t)) (aborted t))
       end.

(** [transaction.abort()] *)
Definition abort : M unit := λ t, (inr (), Tx (stores t) true).

(** The final event of an open request. *)
Inductive open_event : Type :=
| OpenSuccess (db : IDBDatabase)
| OpenError (message : string).

(** [indexedDB.open(name, version)] on what is persisted, with the
    [onupgradeneeded] handler of the caller.  A smaller version is an error;
    a larger one runs the handler inside an upgrade transaction, which
    commits unless the handler aborted it.  The handler also acts on state
    [X] of its own (the promise it may reject).  The result is what is
    persisted afterwards, the final event of the request, and that state.
    Other connections to the database, and with them the [blocked] event,
    are not part of the model. *)
Definition open {X : Type} (persisted : IDBDatabase) (dbVersion : nat)
    (onupgradeneeded : tx → X → tx * X) (x : X) : IDBDatabase * open_event * X :=
  if dbVersion <? version persisted then
    (persisted, OpenError "The requested version is less than the existing version", x)
  else if dbVersion =? version persisted then
    (persisted, OpenSuccess persisted, x)
  else
    let '(t, x') := onupgradeneeded (Tx (objectStores persisted) false) x in
    if aborted t then
      (persisted,
       OpenError "Version change transaction was aborted in upgradeneeded event handler",
       x')
    else
      let db := {| version := dbVersion; objectStores := stores t |} in
      (db, OpenSuccess db, x').

End Ops.
End Meta.

(** ** [IndexedDBManager] of [src/src/db.ts]: opening and upgrading *)

Module Db.
Section Upgrade.
Variable valid_key_path : KeyPath → bool.

(** The index part of the loop body of [this.stores.forEach]. *)
Definition manageIndexes (store : string) (indexes : list IndexSchema.t) : Meta.M unit :=
  Meta.bind (Meta.indexNames store) (λ existingIndexNames,
    let desiredIndexNames := IndexSchema.name <$> indexes in
    Meta.bind
      (Meta.forEach existingIndexNames (λ indexName,
         if negb (Meta.includes desiredIndexNames indexName)
         then Meta.deleteIndex store indexName
         else Meta.ret ()))
      (λ _, Meta.forEach indexes (λ indexSchema,
         if negb (Meta.includes existingIndexNames (IndexSchema.name indexSchema))
         then Meta.createIndex valid_key_path store (IndexSchema.name indexSchema)
                (IndexSchema.keyPath indexSchema) (IndexSchema.options indexSchema)
         else Meta.ret ()))).

(** The loop body of [this.stores.forEach]. *)
Definition manageStore (existingStoreNames : list string) (storeSchema : StoreSchema.t)
    : Meta.M unit :=
  Meta.bind
    (if negb (Meta.includes existingStoreNames (StoreSchema.name storeSchema))
     then Meta.createObjectStore valid_key_path (StoreSchema.name storeSchema)
            (StoreSchema.keyPath storeSchema) (StoreSchema.autoIncrement storeSchema)
     else Meta.objectStore (StoreSchema.name storeSchema))
    (λ store,
       match StoreSchema.indexes storeSchema with
       | Some indexes => manageIndexes store indexes
       | None => Meta.ret ()
       end).

(** The [try] block of [onupgradeneeded]. *)
Definition applySchema (stores : list StoreSchema.t) : Meta.M unit :=
  Meta.bind Meta.objectStoreNames (λ existingStoreNames,
    let desiredStoreNames := StoreSchema.name <$> stores in
    Meta.bind
      (Meta.forEach existingStoreNames (λ storeName,
         if negb (Meta.includes desiredStoreNames storeName)
         then Meta.deleteObjectStore storeName
         else Meta.ret ()))
      (λ _, Meta.forEach stores (manageStore existingStoreNames))).

(** [request.onupgradeneeded]: the schema changes, and the [catch] block that
    aborts the transaction and rejects the promise of [openDB]. *)
Definition onupgradeneeded (stores : list StoreSchema.t) (t : Meta.tx)
    (p : promise Meta.IDBDatabase string) : Meta.tx * promise Meta.IDBDatabase string :=
  match applySchema stores t with
  | (inr _, t') => (t', p)
  | (inl e, t') =>
      ((Meta.abort t').2,
       reject (String.append "Schema upgrade failed: " (Meta.message e)) p)
  end.

(** [openDB] when [this.db] is null: the open request with its handlers.
    The result is what is persisted afterwards and the promise. *)
Definition openDB (persisted : Meta.IDBDatabase) (dbVersion : nat)
    (stores : list StoreSchema.t)
    : Meta.IDBDatabase * promise Meta.IDBDatabase string :=
  let '(persisted', event, p) :=
    Meta.open persisted dbVersion (onupgradeneeded stores) Pending in
  match event with
  | Meta.OpenSuccess db => (persisted', resolve db p)
  | Meta.OpenError message =>
      (persisted', reject (String.append "Database error: " message) p)
  end.




End Upgrade.

(** What a successful upgrade makes of one declared container, given what
    was persisted under its name before ([None]: nothing).  The container is
    the old one, or a new one with the declared key path and auto-increment
    flag.  With an index list declared, its indexes are those of the list, by
    name, each with the definition it had before or else the declared one.
    Without an index list its indexes are as before. *)
Definition reconciled (before : option Meta.IDBObjectStore) (s : StoreSchema.t)
    (after : Meta.IDBObjectStore) : Prop :=
  let os0 := default (Meta.new_store (StoreSchema.keyPath s) (StoreSchema.autoIncrement s))
               before in
  Meta.os_keyPath after = Meta.os_keyPath os0
  ∧ Meta.os_autoIncrement after = Meta.os_autoIncrement os0
  ∧ match StoreSchema.indexes s with
    | Some indexes =>
        dom (Meta.os_indexes after) = list_to_set (IndexSchema.name <$> indexes)
        ∧ ∀ i, i ∈ indexes →
            Meta.os_indexes after !! IndexSchema.name i
            = Some (default (Meta.index_of_schema (IndexSchema.keyPath i)
                               (IndexSchema.options i))
                      (Meta.os_indexes os0 !! IndexSchema.name i))
    | None => Meta.os_indexes after = Meta.os_indexes os0
    end.
End Db.

(** ** [IndexedDBManager] of [src/src/db.ts]: the connection *)

Module Conn.

(** What [getDB] and [close] act on: the fields of the manager, the
    [window] object, and the engine's record of what was asked of it.
    Connections and open requests are referred to by number. *)
Record world : Type := World {
  this_db : option nat;       (* [this.db] *)
  window : option bool;       (* [window.IS_CLOSING_DB] when there is a [window] *)
  listeners : nat;            (* [beforeunload] listeners added so far *)
  open_requests : nat;        (* calls of [indexedDB.open] so far *)
  pending : list nat;         (* open requests without a final event yet *)
  closed : gset nat;          (* connections on which [close()] was called *)
  lost : gset nat             (* connections whose [objectStoreNames] throws *)
}.

(** A manager right after its constructor, in a browser. *)
Definition initial : world :=
  World None (Some false) 0 0 [] ∅ ∅.

(** [isConnectionAlive]: reading [objectStoreNames.length] either throws or
    yields a number that is [>= 0]. *)
Definition isConnectionAlive (w : world) : bool :=
  match this_db w with
  | None => false
  | Some db => negb (bool_decide (db ∈ lost w))
  end.

(** What the promise of [openDB] waits for. *)
Inductive opening : Type :=
| Listed (db : nat)          (* resolved at once with [this.db] *)
| Requested (request : nat)  (* the final event of this open request *).

(** [openDB], up to the return of the promise. *)
Definition openDB (w : world) : world * opening :=
  match this_db w with
  | Some db => (w, Listed db)
  | None =>
      (World (this_db w) (window w) (listeners w) (S (open_requests w))
         (pending w ++ [open_requests w]) (closed w) (lost w),
       Requested (open_requests w))
  end.

(** [getDB], up to its [await] or its [return]: it opens when
    [!this.db || !this.isConnectionAlive()]. *)
Inductive getDB_step : Type :=
| Return (db : nat)
| Await (o : opening).

Definition getDB (w : world) : world * getDB_step :=
  match this_db w with
  | Some db =>
      if negb (isConnectionAlive w)
      then let '(w', o) := openDB w in (w', Await o)
      else (w, Return db)
  | None => let '(w', o) := openDB w in (w', Await o)
  end.

(** [request.onsuccess] of open request [request], with connection [db]. *)
Definition onsuccess (request db : nat) (w : world) : world :=
  let register := bool_decide (window w = Some false) in
  World (Some db)
    (if register then Some true else window w)
    (if register then S (listeners w) else listeners w)
    (open_requests w)
    (filter (λ r, r ≠ request) (pending w))
    (closed w) (lost w).

(** [getDB] after its [await]: [this.db = ...; return this.db!]. *)
Definition getDB_resume (db : nat) (w : world) : world * nat :=
  (World (Some db) (window w) (listeners w) (open_requests w) (pending w)
     (closed w) (lost w), db).

(** [close] *)
Definition close (w : world) : world :=
  match this_db w with
  | Some db =>
      World None
        (if bool_decide (window w = Some true) then Some false else window w)
        (listeners w) (open_requests w) (pending w)
        ({[db]} ∪ closed w) (lost w)
  | None => w
  end.

End Conn.

(** ** [FastIndexedDB] of [src/src/core.ts]: the range query *)

Module Core.
Section RangeQuery.
Context {T Q E Idx : Type}.

(** The closure variables of [findByIndexRange]. *)
Record iter : Type := Iter { results : list T; count : nat; advanced : nat }.

Definition onsuccess (limit offset : IDB.num) (s : iter) (cursor : option T)
    : cursor_step iter T E :=
  match cursor with
  | Some value =>
      if IDB.lt (advanced s) offset then
        Continue (Iter (results s) (count s) (S (advanced s)))
      else if IDB.lt (count s) limit then
        Continue (Iter (results s ++ [value]) (S (count s)) (advanced s))
      else Settle (Resolved (results s))
  | None => Settle (Resolved (results s))
  end.

Definition onerror (e : E) : promise (list T) E := Rejected e.

(** [findByIndexRange], with the events it handled. *)
Definition findByIndexRange_run (eng : IDB.Engine T Q E Idx)
    (storeName indexName : string) (options : option (RangeOptions Q))
    : list (IDB.cursor_event T E) * promise (list T) E :=
  let o := default no_options options in
  let query := query o in
  let direction := default IDB.next (direction o) in
  let limit := default IDB.Infinity (limit o) in
  let offset := default (IDB.Fin 0) (offset o) in
  match IDB.index_of eng storeName indexName with
  | inl error => ([], Rejected error)
  | inr index =>
      let f := IDB.openCursor eng index query (Some direction) in
      drive (onsuccess limit offset) onerror (Iter [] 0 0)
        (IDB.values f) (IDB.ending f)
  end.

Definition findByIndexRange (eng : IDB.Engine T Q E Idx)
    (storeName indexName : string) (options : option (RangeOptions Q))
    : promise (list T) E :=
  (findByIndexRange_run eng storeName indexName options).2.
End RangeQuery.

(** *** The promise adapters and the single-key operations *)

Section Adapters.
Context {E : Type}.

(** What the promises of this file are rejected with: a [DOMException] of
    the engine, [null] (a transaction without an error of its own),
    [new Error(message)], or any other value thrown on the way to the
    request. *)
Inductive reason : Type :=
| DOMError (e : E)
| Null
| Error (message : string)
| Thrown (value : string).

(** The events of one request and of the transaction that owns it. *)
Inductive event (A : Type) : Type :=
| RequestSuccess (result : A)
| RequestError (error : E)
| Complete
| TransactionError (error : option E)
| Abort (error : option E).
Arguments RequestSuccess {A} result.
Arguments RequestError {A} error.
Arguments Complete {A}.
Arguments TransactionError {A} error.
Arguments Abort {A} error.

(** [promisifyRequest]: what its handlers do to its promise on an event. *)
Definition promisifyRequest {A} (ev : event A) (p : promise A reason)
    : promise A reason :=
  match ev with
  | RequestSuccess result => resolve result p
  | RequestError error => reject (DOMError error) p
  | _ => p
  end.

(** [promisifyTransaction]: what its handlers do to its promise. *)
Definition promisifyTransaction {A} (ev : event A) (p : promise unit reason)
    : promise unit reason :=
  match ev with
  | Complete => resolve () p
  | TransactionError error => reject (from_option DOMError Null error) p
  | Abort error => reject (from_option DOMError (Error "Transaction aborted") error) p
  | _ => p
  end.

(** [Promise.all([p1, p2])], given its own state so far. *)
Definition Promise_all {A B} (p1 : promise A reason) (p2 : promise B reason)
    (all : promise (A * B) reason) : promise (A * B) reason :=
  match p1, p2 with
  | Rejected e, _ => reject e all
  | _, Rejected e => reject e all
  | Resolved a, Resolved b => resolve (a, b) all
  | _, _ => all
  end.

(** The three promises of a write operation. *)
Record write_state (A : Type) : Type := WriteState {
  requestPromise : promise A reason;
  transactionPromise : promise unit reason;
  both : promise (A * unit) reason
}.
Arguments WriteState {A} requestPromise transactionPromise both.
Arguments requestPromise {A} w.
Arguments transactionPromise {A} w.
Arguments both {A} w.

Definition deliver {A} (s : write_state A) (ev : event A) : write_state A :=
  let r := promisifyRequest ev (requestPromise s) in
  let t := promisifyTransaction ev (transactionPromise s) in
  WriteState r t (Promise_all r t (both s)).

(** [const [x] = await Promise.all([requestPromise, transactionPromise]);
    return x], after the events of [trace]. *)
Definition await_both {A} (trace : list (event A)) : promise A reason :=
  match both (foldl deliver (WriteState Pending Pending Pending) trace) with
  | Resolved (x, _) => Resolved x
  | Rejected e => Rejected e
  | Pending => Pending
  end.

(** The engine as the write operations see it: for each request, what is
    thrown before the request exists ([getTransaction], [objectStore] or the
    request call itself), or the events of the request and its transaction
    in the order they fire. *)
Record Writes (K D : Type) : Type := {
  on_add : string → D → reason + list (event K);
  on_put : string → D → reason + list (event K);
  on_delete : string → K → reason + list (event unit);
  on_clear : string → reason + list (event unit)
}.
Arguments on_add {K D} w storeName data.
Arguments on_put {K D} w storeName data.
Arguments on_delete {K D} w storeName key.
Arguments on_clear {K D} w storeName.

Definition write {A} (response : reason + list (event A)) : promise A reason :=
  match response with
  | inl error => Rejected error
  | inr trace => await_both trace
  end.

Definition add {K D} (eng : Writes K D) (storeName : string) (data : D)
    : promise K reason :=
  write (on_add eng storeName data).

Definition put {K D} (eng : Writes K D) (storeName : string) (data : D)
    : promise K reason :=
  write (on_put eng storeName data).

Definition delete {K D} (eng : Writes K D) (storeName : string) (key : K)
    : promise unit reason :=
  write (on_delete eng storeName key).

Definition clear {K D} (eng : Writes K D) (storeName : string)
    : promise unit reason :=
  write (on_clear eng storeName).

(** The four write operations, to speak of them at once. *)
Inductive write_op (K D : Type) : Type → Type :=
| Add (storeName : string) (data : D) : write_op K D K
| Put (storeName : string) (data : D) : write_op K D K
| Delete (storeName : string) (key : K) : write_op K D unit
| Clear (storeName : string) : write_op K D unit.
Arguments Add {K D} storeName data.
Arguments Put {K D} storeName data.
Arguments Delete {K D} storeName key.
Arguments Clear {K D} storeName.

Definition response {K D A} (eng : Writes K D) (op : write_op K D A)
    : reason + list (event A) :=
  match op with
  | Add storeName data => on_add eng storeName data
  | Put storeName data => on_put eng storeName data
  | Delete storeName key => on_delete eng storeName key
  | Clear storeName => on_clear eng storeName
  end.

Definition call {K D A} (eng : Writes K D) (op : write_op K D A) : promise A reason :=
  match op with
  | Add storeName data => add eng storeName data
  | Put storeName data => put eng storeName data
  | Delete storeName key => delete eng storeName key
  | Clear storeName => clear eng storeName
  end.

(** The promise of a write operation once the first [n] events have
    fired. *)
Definition call_after {K D A} (n : nat) (eng : Writes K D) (op : write_op K D A)
    : promise A reason :=
  match response eng op with
  | inl error => Rejected error
  | inr trace => await_both (take n trace)
  end.

(** The events that tell that the transaction did not commit. *)
Definition transaction_failed {A} (ev : event A) : bool :=
  match ev with
  | TransactionError _ | Abort _ => true
  | _ => false
  end.

(** The engine as [get] sees it: the records of each object store; why the
    connection cannot be had, if it cannot; why requests fail, if they do. *)
Record Reads (K D : Type) `{Countable K} : Type := {
  records : gmap string (gmap K D);
  unavailable : option reason;
  fault : option E;
  not_found : E
}.
Arguments records {K D _ _} r.
Arguments unavailable {K D _ _} r.
Arguments fault {K D _ _} r.
Arguments not_found {K D _ _} r.

(** [getTransaction(storeName, 'readonly')] and [objectStore(storeName)] *)
Definition getTransaction {K D} `{Countable K} (eng : Reads K D) (storeName : string)
    : reason + gmap K D :=
  match unavailable eng with
  | Some error => inl error
  | None =>
      match records eng !! storeName with
      | Some store => inr store
      | None => inl (DOMError (not_found eng))
      end
  end.

(** [store.get(key)]: the request succeeds with the record under [key], or
    with [undefined] when there is none. *)
Definition IDBObjectStore_get {K D} `{Countable K} (eng : Reads K D) (store : gmap K D)
    (key : K) : event (option D) :=
  match fault eng with
  | Some error => RequestError error
  | None => RequestSuccess (store !! key)
  end.

Definition get {K D} `{Countable K} (eng : Reads K D) (storeName : string) (key : K)
    : promise (option D) reason :=
  match getTransaction eng storeName with
  | inl error => Rejected error
  | inr store => promisifyRequest (IDBObjectStore_get eng store key) Pending
  end.
End Adapters.

Arguments RequestSuccess {E A} result.
Arguments RequestError {E A} error.
Arguments Complete {E A}.
Arguments TransactionError {E A} error.
Arguments Abort {E A} error.
Arguments WriteState {E A} requestPromise transactionPromise both.
Arguments requestPromise {E A} w.
Arguments transactionPromise {E A} w.
Arguments both {E A} w.
Arguments on_add {E K D} w storeName data.
Arguments on_put {E K D} w storeName data.
Arguments on_delete {E K D} w storeName key.
Arguments on_clear {E K D} w storeName.
Arguments Add {K D} storeName data.
Arguments Put {K D} storeName data.
Arguments Delete {K D} storeName key.
Arguments Clear {K D} storeName.
Arguments records {E K D _ _} r.
Arguments unavailable {E K D _ _} r.
Arguments fault {E K D _ _} r.
Arguments not_found {E K D _ _} r.
End Core.

(** ** [FastIndexedDB] of [src/unnamed/part_005]: the range query *)

Module Entry.
Section RangeQuery.
Context {T Q E Idx : Type}.

Record iter : Type := Iter { results : list T; count : nat; skipped : nat }.

Definition onsuccess (options : RangeOptions Q) (s : iter) (cursor : option T)
    : cursor_step iter T E :=
  match cursor with
  | Some value =>
      if IDB.truthy (offset options)
         && IDB.lt (skipped s) (default (IDB.Fin 0) (offset options)) then
        Continue (Iter (results s) (count s) (S (skipped s)))
      else if IDB.truthy (limit options)
              && IDB.ge (count s) (default (IDB.Fin 0) (limit options)) then
        Settle (Resolved (results s))
      else Continue (Iter (results s ++ [value]) (S (count s)) (skipped s))
  | None => Settle (Resolved (results s))
  end.

Definition onerror (e : E) : promise (list T) E := Rejected e.

Definition findByIndexRange_run (eng : IDB.Engine T Q E Idx)
    (storeName indexName : string) (options : option (RangeOptions Q))
    : list (IDB.cursor_event T E) * promise (list T) E :=
  let options := default no_options options in
  match IDB.index_of eng storeName indexName with
  | inl error => ([], Rejected error)
  | inr index =>
      let f := IDB.openCursor eng index (query options) (direction options) in
      drive (onsuccess options) onerror (Iter [] 0 0)
        (IDB.values f) (IDB.ending f)
  end.

Definition findByIndexRange (eng : IDB.Engine T Q E Idx)
    (storeName indexName : string) (options : option (RangeOptions Q))
    : promise (list T) E :=
  (findByIndexRange_run eng storeName indexName options).2.

(** The counters of [core.ts] read as the counters of this variant. *)
Definition of_core (s : Core.iter (T:=T)) : iter :=
  Iter (Core.results s) (Core.count s) (Core.advanced s).
End RangeQuery.

(** The write operations of this variant install handlers on the request
    only: [request.onsuccess = () => resolve(request.result)] and
    [request.onerror = () => reject(request.error)]. *)
Definition request_only {E A} (trace : list (Core.event (E:=E) A))
    : promise A Core.reason :=
  foldl (λ p ev, Core.promisifyRequest ev p) Pending trace.

Definition write {E A} (response : Core.reason + list (Core.event (E:=E) A))
    : promise A Core.reason :=
  match response with
  | inl error => Rejected error
  | inr trace => request_only trace
  end.

Definition add {E K D} (eng : Core.Writes (E:=E) K D) (storeName : string) (data : D)
    : promise K Core.reason :=
  write (Core.on_add eng storeName data).

Definition put {E K D} (eng : Core.Writes (E:=E) K D) (storeName : string) (data : D)
    : promise K Core.reason :=
  write (Core.on_put eng storeName data).

Definition delete {E K D} (eng : Core.Writes (E:=E) K D) (storeName : string) (key : K)
    : promise unit Core.reason :=
  write (Core.on_delete eng storeName key).

Definition clear {E K D} (eng : Core.Writes (E:=E) K D) (storeName : string)
    : promise unit Core.reason :=
  write (Core.on_clear eng storeName).
End Entry.

(** The options under which [core.ts] does what [part_005] does with
    [options]: a limit that is falsy there ([0]) is no limit. *)
Definition without_zero_limit {Q} (options : RangeOptions Q) : RangeOptions Q :=
  Build_RangeOptions Q (query options) (direction options)
    (if IDB.truthy (limit options) then limit options else None)
    (offset options).

(** ** [FastIndexedDB] of [src/unnamed/part_005]: opening and upgrading *)

Module EntryOpen.
Section Upgrade.
Variable valid_key_path : KeyPath → bool.

(** [db.objectStoreNames.contains(name)], read when it is asked. *)
Definition contains (name : string) : Meta.M bool :=
  λ t, (inr (bool_decide (is_Some (Meta.stores t !! name))), t).

(** The loop body of [this.schema.forEach]: a store that is not there is
    created with all its indexes; a store that is there is left alone. *)
Definition createStore (store : StoreSchema.t) : Meta.M unit :=
  Meta.bind (contains (StoreSchema.name store)) (λ present,
    if negb present then
      Meta.bind
        (Meta.createObjectStore valid_key_path (StoreSchema.name store)
           (StoreSchema.keyPath store) (StoreSchema.autoIncrement store))
        (λ objectStore,
           Meta.forEach (default [] (StoreSchema.indexes store)) (λ index,
             Meta.createIndex valid_key_path objectStore (IndexSchema.name index)
               (IndexSchema.keyPath index) (IndexSchema.options index)))
    else Meta.ret ()).

Definition applySchema (schema : list StoreSchema.t) : Meta.M unit :=
  Meta.forEach schema createStore.

(** [request.onupgradeneeded].  The handler has no [try]: an exception
    leaves it, and the engine aborts the transaction of a handler that
    throws.  The promise is not touched here. *)
Definition onupgradeneeded (schema : list StoreSchema.t) (t : Meta.tx)
    (p : promise unit string) : Meta.tx * promise unit string :=
  match applySchema schema t with
  | (inr _, t') => (t', p)
  | (inl _, t') => ((Meta.abort t').2, p)
  end.

(** [open]: resolves on the success event, rejects with the error of the
    request. *)
Definition open (persisted : Meta.IDBDatabase) (version : nat)
    (schema : list StoreSchema.t) : Meta.IDBDatabase * promise unit string :=
  let '(persisted', event, p) :=
    Meta.open persisted version (onupgradeneeded schema) Pending in
  match event with
  | Meta.OpenSuccess _ => (persisted', resolve () p)
  | Meta.OpenError message => (persisted', reject message p)
  end.
End Upgrade.
End EntryOpen.

(** ** [QueryBuilder] of [src/src/query-builder.ts] *)

Module Query.

(** Keys: numbers and strings.  Dates, binary keys and arrays of keys are
    left out; numbers are integers. *)
Inductive Key : Type := KNum (n : Z) | KStr (s : string).

(** The engine's order on keys: numbers come before strings. *)
Definition key_compare (a b : Key) : comparison :=
  match a, b with
  | KNum x, KNum y => Z.compare x y
  | KNum _, KStr _ => Lt
  | KStr _, KNum _ => Gt
  | KStr x, KStr y => String.compare x y
  end.

Record IDBKeyRange : Type := {
  lower : option Key;
  upper : option Key;
  lowerOpen : bool;
  upperOpen : bool
}.

Definition DataError : Meta.DOMException :=
  {| Meta.exn_name := "DataError";
     Meta.message := "The parameter is not a valid key range" |}.

(** [IDBKeyRange.lowerBound], [upperBound] and [bound]; the last one throws
    when the bounds are in the wrong order, or equal with an open end. *)
Definition lowerBound (value : Key) (open : bool) : IDBKeyRange :=
  {| lower := Some value; upper := None; lowerOpen := open; upperOpen := true |}.

Definition upperBound (value : Key) (open : bool) : IDBKeyRange :=
  {| lower := None; upper := Some value; lowerOpen := true; upperOpen := open |}.

Definition bound (l u : Key) (lowerOpen upperOpen : bool)
    : Meta.DOMException + IDBKeyRange :=
  let r := {| lower := Some l; upper := Some u;
              lowerOpen := lowerOpen; upperOpen := upperOpen |} in
  match key_compare l u with
  | Gt => inl DataError
  | Eq => if lowerOpen || upperOpen then inl DataError else inr r
  | Lt => inr r
  end.

(** What [this.query] holds: a key or a key range. *)
Inductive value : Type := VKey (k : Key) | VRange (r : IDBKeyRange).

(** Truthiness of [this.query] and of [this.indexName]: [undefined], [0]
    and the empty string are falsy, an object is truthy. *)
Definition truthy_value (q : option value) : bool :=
  match q with
  | None => false
  | Some (VKey (KNum n)) => negb (Z.eqb n 0)
  | Some (VKey (KStr s)) => negb (bool_decide (s = ""%string))
  | Some (VRange _) => true
  end.

Definition truthy_string (s : option string) : bool :=
  match s with
  | None => false
  | Some s => negb (bool_decide (s = ""%string))
  end.

Record QueryOptions : Type := {
  o_limit : option IDB.num;
  o_offset : option IDB.num;
  o_direction : option IDB.IDBCursorDirection
}.

(** The fields of a [QueryBuilder]; [this.db] is passed to the methods that
    use it. *)
Record t : Type := Builder {
  b_storeName : string;
  b_indexName : option string;
  b_query : option value;
  b_options : QueryOptions
}.

(** [new QueryBuilder(db, storeName)] *)
Definition new (storeName : string) : t :=
  Builder storeName None None {| o_limit := None; o_offset := None; o_direction := None |}.

(** [{ query: this.query, ...this.options }] *)
Definition spread (b : t) : RangeOptions value :=
  Build_RangeOptions value (b_query b) (o_direction (b_options b))
    (o_limit (b_options b)) (o_offset (b_options b)).

(** [where]; the name is taken in Rocq. *)
Definition where_ (indexName : string) (b : t) : t :=
  Builder (b_storeName b) (Some indexName) (b_query b) (b_options b).

Definition set_query (q : value) (b : t) : t :=
  Builder (b_storeName b) (b_indexName b) (Some q) (b_options b).

Definition equals (v : Key) (b : t) : t := set_query (VKey v) b.
Definition above (v : Key) (b : t) : t := set_query (VRange (lowerBound v true)) b.
Definition aboveOrEqual (v : Key) (b : t) : t := set_query (VRange (lowerBound v false)) b.
Definition below (v : Key) (b : t) : t := set_query (VRange (upperBound v true)) b.
Definition belowOrEqual (v : Key) (b : t) : t := set_query (VRange (upperBound v false)) b.

(** [between(lower, upper, includeLower = true, includeUpper = true)] *)
Definition between (l u : Key) (includeLower includeUpper : option bool) (b : t)
    : Meta.DOMException + t :=
  match bound l u (negb (default true includeLower)) (negb (default true includeUpper)) with
  | inl e => inl e
  | inr r => inr (set_query (VRange r) b)
  end.

Definition limit (count : IDB.num) (b : t) : t :=
  Builder (b_storeName b) (b_indexName b) (b_query b)
    {| o_limit := Some count;
       o_offset := o_offset (b_options b);
       o_direction := o_direction (b_options b) |}.

Definition offset (count : IDB.num) (b : t) : t :=
  Builder (b_storeName b) (b_indexName b) (b_query b)
    {| o_limit := o_limit (b_options b);
       o_offset := Some count;
       o_direction := o_direction (b_options b) |}.

Definition reverse (b : t) : t :=
  Builder (b_storeName b) (b_indexName b) (b_query b)
    {| o_limit := o_limit (b_options b);
       o_offset := o_offset (b_options b);
       o_direction := Some IDB.prev |}.

(** The [FastIndexedDB] of [part_005] as the builder uses it: its range
    query over the engine's cursors, and the outcomes of its [getAll],
    [count] and [countByIndex] (what is thrown or the error of the request,
    or the result of the request). *)
Record Db (T E Idx : Type) : Type := {
  ranges : IDB.Engine T value E Idx;
  all : string → E + list T;
  counted : string → E + nat;
  counted_by_index : string → string → value → E + nat
}.
Arguments ranges {T E Idx} d.
Arguments all {T E Idx} d storeName.
Arguments counted {T E Idx} d storeName.
Arguments counted_by_index {T E Idx} d storeName indexName query.

Definition settled {A E} (r : E + A) : promise A E :=
  match r with inl e => Rejected e | inr a => Resolved a end.

(** [const results = await p; return results[0]] *)
Definition first_of {T E} (p : promise (list T) E) : promise (option T) E :=
  match p with
  | Pending => Pending
  | Resolved results => Resolved (head results)
  | Rejected e => Rejected e
  end.

Section Methods.
Context {T E Idx : Type}.

Definition toArray (db : Db T E Idx) (b : t) : promise (list T) E :=
  if truthy_string (b_indexName b) then
    Entry.findByIndexRange (ranges db) (b_storeName b) (default ""%string (b_indexName b))
      (Some (spread b))
  else settled (all db (b_storeName b)).

Definition count (db : Db T E Idx) (b : t) : promise nat E :=
  if truthy_string (b_indexName b) && truthy_value (b_query b) then
    match b_query b with
    | Some q =>
        settled (counted_by_index db (b_storeName b)
                   (default ""%string (b_indexName b)) q)
    | None => settled (counted db (b_storeName b))
    end
  else settled (counted db (b_storeName b)).

(** [first] and [last] change the builder they are called on. *)
Definition first (db : Db T E Idx) (b : t) : t * promise (option T) E :=
  let b' := limit (IDB.Fin 1) b in (b', first_of (toArray db b')).

Definition last (db : Db T E Idx) (b : t) : t * promise (option T) E :=
  let b' := limit (IDB.Fin 1) (reverse b) in (b', first_of (toArray db b')).
End Methods.
End Query.

(** ** Sample data: the store of the test suite

    The [users] store of [tests/core.test.ts] seen through its [by_age]
    index: ages 30, 25, 30, 40 inserted in that order. *)

Module Sample.
Definition by_age (d : IDB.IDBCursorDirection) : list nat :=
  match d with
  | IDB.next => [25; 30; 30; 40]
  | IDB.nextunique => [25; 30; 40]
  | IDB.prev => [40; 30; 30; 25]
  | IDB.prevunique => [40; 30; 25]
  end.

Definition index_of (storeName indexName : string) : string + unit :=
  if decide (storeName = "users"%string ∧ indexName = "by_age"%string)
  then inr () else inl "NotFoundError"%string.

(** A healthy engine. *)
Definition engine : IDB.Engine nat unit string unit :=
  {| IDB.index_of := index_of;
     IDB.scan := λ _ _ d, IDB.Feed (by_age d) None |}.

(** An engine whose cursor fails after two entries. *)
Definition failing_engine : IDB.Engine nat unit string unit :=
  {| IDB.index_of := index_of;
     IDB.scan := λ _ _ d, IDB.Feed (take 2 (by_age d)) (Some "AbortError"%string) |}.

Definition page (l o : nat) : option (RangeOptions unit) :=
  Some {| query := None; direction := None;
          limit := Some (IDB.Fin l); offset := Some (IDB.Fin o) |}.

(** An engine on which every request succeeds but no transaction commits:
    the quota is exceeded. *)
Definition full_disk : Core.Writes (E:=string) nat string :=
  {| Core.on_add := λ _ _, inr [Core.RequestSuccess 1; Core.Abort (Some "QuotaExceededError")];
     Core.on_put := λ _ _, inr [Core.RequestSuccess 1; Core.Abort (Some "QuotaExceededError")];
     Core.on_delete := λ _ _, inr [Core.RequestSuccess (); Core.Abort (Some "QuotaExceededError")];
     Core.on_clear := λ _, inr [Core.RequestSuccess (); Core.Abort (Some "QuotaExceededError")] |}.

(** An engine on which every write goes through. *)
Definition healthy : Core.Writes (E:=string) nat string :=
  {| Core.on_add := λ _ _, inr [Core.RequestSuccess 1; Core.Complete];
     Core.on_put := λ _ _, inr [Core.RequestSuccess 1; Core.Complete];
     Core.on_delete := λ _ _, inr [Core.RequestSuccess (); Core.Complete];
     Core.on_clear := λ _, inr [Core.RequestSuccess (); Core.Complete] |}.

(** The [users] store holding one record, under key 1. *)
Definition one_user : Core.Reads (E:=string) nat string :=
  {| Core.records := {["users" := {[1 := "Alice"]}]};
     Core.unavailable := None;
     Core.fault := None;
     Core.not_found := "NotFoundError" |}.

(** The schemas of the upgrade test: version 1, and version 2 with a new
    index and a new store. *)
Definition index (name keyPath : string) (unique : bool) : IndexSchema.t :=
  {| IndexSchema.name := name;
     IndexSchema.keyPath := KPString keyPath;
     IndexSchema.options :=
       if unique then Some {| unique := true; multiEntry := false |} else None |}.

Definition users (indexes : option (list IndexSchema.t)) : StoreSchema.t :=
  {| StoreSchema.name := "users";
     StoreSchema.keyPath := Some (KPString "id");
     StoreSchema.autoIncrement := Some true;
     StoreSchema.indexes := indexes |}.

Definition products : StoreSchema.t :=
  {| StoreSchema.name := "products";
     StoreSchema.keyPath := Some (KPString "sku");
     StoreSchema.autoIncrement := None;
     StoreSchema.indexes := None |}.

Definition testSchema : list StoreSchema.t :=
  [users (Some [index "by_name" "name" false; index "by_age" "age" false;
                index "by_email" "email" true])].

Definition v2Schema : list StoreSchema.t :=
  [users (Some [index "by_name" "name" false; index "by_age" "age" false;
                index "by_email" "email" true; index "by_city" "city" false]);
   products].

(** An engine that accepts every key path. *)
Definition any_key_path (k : KeyPath) : bool := true.

(** What is persisted after the first open with [testSchema]. *)
Definition v1 : Meta.IDBDatabase := (Db.openDB any_key_path Meta.fresh 1 testSchema).1.

(** What is persisted after the upgrade to [v2Schema]. *)
Definition v2 : Meta.IDBDatabase := (Db.openDB any_key_path v1 2 v2Schema).1.

(** A version 2 that declares [users] without an index list, and what is
    persisted after the upgrade to it. *)
Definition bareSchema : list StoreSchema.t := [users None].

Definition bare : Meta.IDBDatabase := (Db.openDB any_key_path v1 2 bareSchema).1.

(** The [users] store as the query builder reaches it: the range queries
    over [by_age], [getAll] in the order of the primary keys, and the
    counts. *)
Definition users_db : Query.Db nat string unit :=
  {| Query.ranges :=
       {| IDB.index_of := index_of;
          IDB.scan := λ _ _ d, IDB.Feed (by_age d) None |};
     Query.all := λ storeName,
       if decide (storeName = "users"%string) then inr [30; 25; 30; 40]
       else inl "NotFoundError"%string;
     Query.counted := λ storeName,
       if decide (storeName = "users"%string) then inr 4
       else inl "NotFoundError"%string;
     Query.counted_by_index := λ _ _ _, inr 0 |}.

(** [table('users').where('by_age')] *)
Definition by_age_query : Query.t := Query.where_ "by_age" (Query.new "users").
End Sample.

(* ===================================================================== *)
(** * Properties *)
(* ===================================================================== *)

(** ** The range cursor executor *)

Section CursorFacts.
Context {T Q E Idx : Type}.

Lemma num_drop_skip b a (v : T) l :
  IDB.lt a b = true → IDB.num_drop (IDB.num_sub b a) (v :: l) = IDB.num_drop (IDB.num_sub b (S a)) l.
Proof.
  destruct b as [n|]; simpl; [|done].
  intros H%Nat.ltb_lt. by replace (n - a) with (S (n - S a)) by lia.
Qed.

Lemma num_drop_done b a (l : list T) :
  IDB.lt a b = false → IDB.num_drop (IDB.num_sub b a) l = l.
Proof.
  destruct b as [n|]; simpl; [|done].
  intros H%Nat.ltb_ge. by replace (n - a) with 0 by lia.
Qed.

Lemma num_take_push b c (v : T) l :
  IDB.lt c b = true → IDB.num_take (IDB.num_sub b c) (v :: l) = v :: IDB.num_take (IDB.num_sub b (S c)) l.
Proof.
  destruct b as [n|]; simpl; [|done].
  intros H%Nat.ltb_lt. by replace (n - c) with (S (n - S c)) by lia.
Qed.

Lemma num_take_full b c (l : list T) :
  IDB.lt c b = false → IDB.num_take (IDB.num_sub b c) l = [].
Proof.
  destruct b as [n|]; simpl; [|done].
  intros H%Nat.ltb_ge. by replace (n - c) with 0 by lia.
Qed.

(** The cursor loop of [core.ts] from any state of its counters, when the
    cursor runs to its end without an error. *)
Lemma core_drive_resolves (limit offset : IDB.num) (vs : list T) :
  ∀ res c a,
    (drive (Core.onsuccess (E:=E) limit offset) Core.onerror (Core.Iter res c a) vs None).2
    = Resolved (res ++ IDB.num_take (IDB.num_sub limit c) (IDB.num_drop (IDB.num_sub offset a) vs)).
Proof.
  induction vs as [|v vs IH]; intros res c a; simpl.
  - destruct (IDB.num_sub offset a), (IDB.num_sub limit c); simpl;
      rewrite ?drop_nil, ?take_nil, ?app_nil_r; done.
  - destruct (IDB.lt a offset) eqn:Ha; simpl.
    + specialize (IH res c (S a)).
      destruct (drive _ _ _ vs None) as [tr p]; simpl in *.
      by rewrite (num_drop_skip _ _ _ _ Ha).
    + rewrite (num_drop_done _ _ _ Ha).
      destruct (IDB.lt c limit) eqn:Hc; simpl.
      * specialize (IH (res ++ [v]) (S c) a).
        destruct (drive _ _ _ vs None) as [tr p]; simpl in *.
        rewrite IH, (num_drop_done _ _ _ Ha), (num_take_push _ _ _ _ Hc).
        by rewrite <- app_assoc.
      * by rewrite (num_take_full _ _ _ Hc), app_nil_r.
Qed.

(** An error event that is delivered settles the promise of [core.ts] as
    rejected, whatever was accumulated. *)
Lemma core_drive_error (limit offset : IDB.num) (vs : list T) (fin : option E) (e : E) :
  ∀ s tr p,
    drive (Core.onsuccess limit offset) Core.onerror s vs fin = (tr, p) →
    IDB.OnError e ∈ tr → p = Rejected e.
Proof.
  induction vs as [|v vs IH]; intros s tr p; cbn [drive].
  - destruct fin as [e'|]; simpl; intros [= <- <-] Hin.
    + apply list_elem_of_singleton in Hin. by injection Hin as ->.
    + by apply list_elem_of_singleton in Hin.
  - destruct (Core.onsuccess (E:=E) limit offset s (Some v)) as [s'|q] eqn:Hs.
    + destruct (drive _ _ s' vs fin) as [tr' p'] eqn:Hd.
      intros [= <- <-] Hin. apply elem_of_cons in Hin as [?|Hin]; [done|].
      by eapply IH.
    + intros [= <- <-] Hin. by apply list_elem_of_singleton in Hin.
Qed.

(** The cursor reaches the error event when the handler continues on every
    entry before it: there are at most [offset - advanced] entries to skip
    plus [limit - count] entries to collect. *)
Lemma core_drive_reaches_error (limit offset : IDB.num) (vs : list T) (e : E) :
  ∀ res c a,
    IDB.num_le (length vs) (IDB.num_add (IDB.num_sub offset a) (IDB.num_sub limit c)) = true →
    (drive (Core.onsuccess limit offset) Core.onerror (Core.Iter res c a) vs (Some e)).2
    = Rejected (A:=list T) e.
Proof.
  induction vs as [|v vs IH]; intros res c a Hle; simpl; [done|].
  destruct (IDB.lt a offset) eqn:Ha; simpl.
  - specialize (IH res c (S a)).
    destruct (drive _ _ _ vs (Some e)) as [tr p]; simpl in *. apply IH.
    destruct offset as [o|], limit as [l|]; cbn [IDB.num_le IDB.num_add IDB.num_sub IDB.lt length] in *; try done.
    apply Nat.leb_le in Hle. apply Nat.ltb_lt in Ha. apply Nat.leb_le. lia.
  - destruct (IDB.lt c limit) eqn:Hc; simpl.
    + specialize (IH (res ++ [v]) (S c) a).
      destruct (drive _ _ _ vs (Some e)) as [tr p]; simpl in *. apply IH.
      destruct offset as [o|], limit as [l|]; cbn [IDB.num_le IDB.num_add IDB.num_sub IDB.lt length] in *; try done.
      apply Nat.leb_le in Hle. apply Nat.ltb_lt in Hc. apply Nat.ltb_ge in Ha.
      apply Nat.leb_le. lia.
    + destruct offset as [o|], limit as [l|];
        cbn [IDB.num_le IDB.num_add IDB.num_sub IDB.lt length] in *; try done.
      apply Nat.leb_le in Hle. apply Nat.ltb_ge in Ha, Hc. lia.
Qed.

(** One event handled by the variant of [part_005] and by [core.ts], from
    the same counters: they do the same unless [limit] is [0]. *)
Lemma entry_onsuccess_core (options : RangeOptions Q) (s : Core.iter) (cursor : option T) :
  limit options ≠ Some (IDB.Fin 0) →
  Entry.onsuccess (E:=E) options (Entry.of_core s) cursor
  = match Core.onsuccess (default IDB.Infinity (limit options))
            (default (IDB.Fin 0) (offset options)) s cursor with
    | Continue s' => Continue (Entry.of_core s')
    | Settle p => Settle p
    end.
Proof.
  intros Hlim. destruct s as [res c a], cursor as [v|]; [|done].
  unfold Entry.onsuccess, Core.onsuccess, Entry.of_core; cbn [Core.results Core.count
    Core.advanced Entry.results Entry.count Entry.skipped].
  destruct (offset options) as [[[|o]|]|], (limit options) as [[[|l]|]|];
    try done; cbn [IDB.truthy default from_option id andb IDB.lt IDB.ge];
    repeat match goal with
      | |- context [Nat.ltb ?x ?y] => destruct (Nat.ltb_spec x y)
      | |- context [Nat.leb ?x ?y] => destruct (Nat.leb_spec x y)
      end; cbn [andb Core.results Core.count Core.advanced]; try done; lia.
Qed.

Lemma entry_drive_core (options : RangeOptions Q) (vs : list T) (fin : option E) :
  limit options ≠ Some (IDB.Fin 0) →
  ∀ s, drive (Entry.onsuccess options) Entry.onerror (Entry.of_core s) vs fin
       = drive (Core.onsuccess (default IDB.Infinity (limit options))
                  (default (IDB.Fin 0) (offset options))) Core.onerror s vs fin.
Proof.
  intros Hlim. induction vs as [|v vs IH]; intros s; cbn [drive].
  - rewrite entry_onsuccess_core by done.
    destruct fin; [done|]. by destruct (Core.onsuccess _ _ s None).
  - rewrite entry_onsuccess_core by done.
    destruct (Core.onsuccess _ _ s (Some v)) as [s'|p]; [|done]. by rewrite IH.
Qed.

(** The two variants issue the same cursor request and handle it alike,
    unless [limit] is [0]. *)
Lemma entry_findByIndexRange_core (eng : IDB.Engine T Q E Idx)
    (storeName indexName : string) (options : option (RangeOptions Q)) :
  (options ≫= limit) ≠ Some (IDB.Fin 0) →
  Entry.findByIndexRange eng storeName indexName options
  = Core.findByIndexRange eng storeName indexName options.
Proof.
  intros Hlim. unfold Entry.findByIndexRange, Core.findByIndexRange,
    Entry.findByIndexRange_run, Core.findByIndexRange_run.
  destruct (IDB.index_of eng storeName indexName) as [err|index]; [done|].
  assert (limit (default no_options options) ≠ Some (IDB.Fin 0)) as Hl
    by (by destruct options).
  change (Entry.Iter [] 0 0) with (Entry.of_core (Core.Iter (T:=T) [] 0 0)).
  rewrite entry_drive_core by done.
  unfold IDB.openCursor. by destruct (direction (default no_options options)).
Qed.

(** [findByIndexRange] of [core.ts] on a cursor that runs to its end: the
    scan sliced by the offset and the limit, absent ones included. *)
Lemma core_findByIndexRange_resolves (eng : IDB.Engine T Q E Idx)
    (storeName indexName : string) (options : option (RangeOptions Q))
    (index : Idx) (entries : list T) :
  IDB.index_of eng storeName indexName = inr index →
  IDB.openCursor eng index (options ≫= query) (options ≫= direction)
    = IDB.Feed entries None →
  Core.findByIndexRange eng storeName indexName options
  = Resolved (IDB.num_take (default IDB.Infinity (options ≫= limit))
                (IDB.num_drop (default (IDB.Fin 0) (options ≫= offset)) entries)).
Proof.
  intros Hidx Hscan. unfold Core.findByIndexRange, Core.findByIndexRange_run.
  rewrite Hidx.
  assert (IDB.openCursor eng index (query (default no_options options))
            (Some (default IDB.next (direction (default no_options options))))
          = IDB.Feed entries None) as ->.
  { rewrite <- Hscan. unfold IDB.openCursor. destruct options as [o|]; [|done].
    by destruct (direction o). }
  cbn [IDB.values IDB.ending]. rewrite core_drive_resolves. cbn [app].
  destruct options as [o|]; cbn [default from_option id mbind option_bind no_options limit offset].
  - by destruct (limit o) as [[l|]|], (offset o) as [[k|]|];
      cbn [default from_option id IDB.num_sub]; rewrite ?Nat.sub_0_r.
  - done.
Qed.

End CursorFacts.

(** ** Claims about the range cursor executor *)

(** C1: when the index yields [entries] for the requested range and
    direction, [findByIndexRange] with offset [o] and limit [l] resolves with
    [entries] sliced at [[o, o + l)], which has [max 0 (min l (N - o))]
    records. *)
Theorem findByIndexRange_returns_slice {T Q E Idx : Type}
    (eng : IDB.Engine T Q E Idx) (storeName indexName : string)
    (q : option Q) (d : option IDB.IDBCursorDirection) (l o : nat)
    (index : Idx) (entries : list T) :
  IDB.index_of eng storeName indexName = inr index →
  IDB.openCursor eng index q d = IDB.Feed entries None →
  ∃ r,
    Core.findByIndexRange eng storeName indexName
      (Some {| query := q; direction := d;
               limit := Some (IDB.Fin l); offset := Some (IDB.Fin o) |})
    = Resolved r
    ∧ r = take l (drop o entries)
    ∧ Z.of_nat (length r)
      = Z.max 0 (Z.min (Z.of_nat l) (Z.of_nat (length entries) - Z.of_nat o)).
Proof.
  intros Hidx Hscan. exists (take l (drop o entries)). split; [|split; [done|]].
  - by rewrite (core_findByIndexRange_resolves eng storeName indexName _ index entries).
  - rewrite length_take, length_drop. lia.
Qed.

Lemma findByIndexRange_returns_slice_witness :
  IDB.index_of Sample.engine "users" "by_age" = inr ()
  ∧ IDB.openCursor Sample.engine () None None = IDB.Feed [25; 30; 30; 40] None
  ∧ ∃ r, Core.findByIndexRange Sample.engine "users" "by_age" (Sample.page 2 1)
         = Resolved r
         ∧ r = take 2 (drop 1 [25; 30; 30; 40])
         ∧ Z.of_nat (length r)
           = Z.max 0 (Z.min (Z.of_nat 2) (Z.of_nat (length [25; 30; 30; 40]) - Z.of_nat 1)).
Proof.
  split; [reflexivity|]. split; [reflexivity|].
  apply (findByIndexRange_returns_slice Sample.engine "users" "by_age"
           None None 2 1 () [25; 30; 30; 40]); reflexivity.
Defined.

(** C6: in every run of [findByIndexRange], once the cursor request fires
    its error event the call is rejected with that error; nothing of what
    was accumulated is returned. *)
Theorem findByIndexRange_cursor_error_rejects {T Q E Idx : Type}
    (eng : IDB.Engine T Q E Idx) (storeName indexName : string)
    (options : option (RangeOptions Q)) (e : E) :
  IDB.OnError e ∈ (Core.findByIndexRange_run eng storeName indexName options).1 →
  Core.findByIndexRange eng storeName indexName options = Rejected e.
Proof.
  unfold Core.findByIndexRange, Core.findByIndexRange_run.
  destruct (IDB.index_of eng storeName indexName) as [err|index]; cbn [fst snd].
  - intros Hin. by apply elem_of_nil in Hin.
  - destruct (drive _ _ _ _ _) as [tr p] eqn:Hd. cbn [fst snd].
    by eapply core_drive_error.
Qed.

Lemma findByIndexRange_cursor_error_rejects_witness :
  IDB.OnError "AbortError"%string
    ∈ (Core.findByIndexRange_run Sample.failing_engine "users" "by_age" None).1
  ∧ Core.findByIndexRange Sample.failing_engine "users" "by_age" None
    = Rejected "AbortError"%string.
Proof.
  split.
  - vm_compute. do 2 apply list_elem_of_further. apply list_elem_of_here.
  - apply (findByIndexRange_cursor_error_rejects Sample.failing_engine).
    vm_compute. do 2 apply list_elem_of_further. apply list_elem_of_here.
Defined.

(** C9: with [limit = 0] the two implementations differ: [core.ts] returns
    no record, the variant of [part_005] ignores the limit and returns the
    whole scan. *)
Theorem findByIndexRange_variants_differ_at_limit_0 :
  Core.findByIndexRange Sample.engine "users" "by_age" (Sample.page 0 0)
  = Resolved []
  ∧ Entry.findByIndexRange Sample.engine "users" "by_age" (Sample.page 0 0)
    = Resolved [25; 30; 30; 40].
Proof. split; reflexivity. Qed.

(** ** The schema reconciler: what every run preserves *)

Section UpgradeInvariants.
Variable valid_key_path : KeyPath → bool.

Lemma triple_ret {A} (I : Meta.tx → Prop) (a : A) (Q : A → Prop) :
  Q a → Meta.triple I (Meta.ret a) Q.
Proof. intros HQ t Ht. split; [done|]. by intros ? [= <-]. Qed.

Lemma triple_bind {A B} (I : Meta.tx → Prop) (m : Meta.M A) (f : A → Meta.M B)
    (Q : A → Prop) (R : B → Prop) :
  Meta.triple I m Q → (∀ a, Q a → Meta.triple I (f a) R) →
  Meta.triple I (Meta.bind m f) R.
Proof.
  intros Hm Hf t Ht. unfold Meta.bind. destruct (Hm t Ht) as [H1 H2].
  destruct (m t) as [[e|a] t']; simpl in *; [done|]. by apply (Hf a); auto.
Qed.

Lemma triple_forEach {A} (I : Meta.tx → Prop) (l : list A) (f : A → Meta.M unit) :
  (∀ x, x ∈ l → Meta.triple I (f x) (λ _, True)) →
  Meta.triple I (Meta.forEach l f) (λ _, True).
Proof.
  induction l as [|x l IH]; intros Hf; cbn [Meta.forEach].
  - by apply triple_ret.
  - eapply triple_bind; [apply Hf; left|]. intros _ _. apply IH.
    intros y Hy. apply Hf. by right.
Qed.

(** *** The [aborted] flag is only set by [abort] *)








(** *** An index declared again is never touched *)

Section Untouched.
Variables (c n : string) (ix : Meta.IDBIndex).

Lemma objectStoreNames_has_index :
  Meta.triple (Meta.has_index c n ix) Meta.objectStoreNames (λ l, c ∈ l).
Proof.
  intros t Ht. split; [done|]. intros l [= <-].
  destruct Ht as (os & Hos & _). apply elem_of_elements, elem_of_dom. eauto.
Qed.

Lemma deleteObjectStore_has_index k :
  k ≠ c → Meta.triple (Meta.has_index c n ix) (Meta.deleteObjectStore k) (λ _, True).
Proof.
  intros Hk t (os & Hos & Hix). unfold Meta.deleteObjectStore.
  destruct (Meta.stores t !! k); simpl; (split; [|done]).
  - exists os. cbn [Meta.stores]. by rewrite lookup_delete_ne.
  - by exists os.
Qed.

Lemma createObjectStore_has_index k kp ai :
  k ≠ c →
  Meta.triple (Meta.has_index c n ix) (Meta.createObjectStore valid_key_path k kp ai) (λ s, s = k).
Proof.
  intros Hk t (os & Hos & Hix). unfold Meta.createObjectStore.
  repeat (case_match; simpl); (split; [|by intros ? [= <-]]);
    try (by exists os).
  exists os. cbn [Meta.stores]. by rewrite lookup_insert_ne.
Qed.

Lemma objectStore_has_index k :
  Meta.triple (Meta.has_index c n ix) (Meta.objectStore k) (λ s, s = k).
Proof.
  intros t Ht. unfold Meta.objectStore.
  destruct (Meta.stores t !! k); simpl; (split; [done|by intros ? [= <-]]).
Qed.

Lemma indexNames_has_index k :
  Meta.triple (Meta.has_index c n ix) (Meta.indexNames k) (λ l, k = c → n ∈ l).
Proof.
  intros t Ht. unfold Meta.indexNames. destruct (Meta.stores t !! k) as [os'|] eqn:Hk;
    simpl; (split; [done|]); [|done].
  intros l [= <-] ->. destruct Ht as (os & Hos & Hix).
  rewrite Hos in Hk. injection Hk as <-.
  apply elem_of_elements, elem_of_dom. eauto.
Qed.

Lemma deleteIndex_has_index k i :
  (k = c → i ≠ n) → Meta.triple (Meta.has_index c n ix) (Meta.deleteIndex k i) (λ _, True).
Proof.
  intros Hki t (os & Hos & Hix). unfold Meta.deleteIndex.
  destruct (Meta.stores t !! k) as [os'|] eqn:Hk; simpl; [|by split; [exists os|]].
  destruct (Meta.os_indexes os' !! i); simpl; (split; [|done]); [|by exists os].
  destruct (decide (k = c)) as [->|Hne].
  - rewrite Hos in Hk. injection Hk as <-.
    eexists. cbn [Meta.stores]. rewrite lookup_insert_eq. split; [done|].
    cbn [Meta.with_indexes Meta.os_indexes].
    rewrite lookup_delete_ne; [done|]. by apply Hki.
  - exists os. cbn [Meta.stores]. by rewrite lookup_insert_ne.
Qed.

Lemma createIndex_has_index k i kp o :
  (k = c → i ≠ n) →
  Meta.triple (Meta.has_index c n ix) (Meta.createIndex valid_key_path k i kp o) (λ _, True).
Proof.
  intros Hki t (os & Hos & Hix). unfold Meta.createIndex.
  destruct (Meta.stores t !! k) as [os'|] eqn:Hk; simpl; [|by split; [exists os|]].
  repeat (case_match; simpl); (split; [|done]); try (by exists os).
  destruct (decide (k = c)) as [->|Hne].
  - rewrite Hos in Hk. injection Hk as <-.
    eexists. cbn [Meta.stores]. rewrite lookup_insert_eq. split; [done|].
    cbn [Meta.with_indexes Meta.os_indexes].
    rewrite lookup_insert_ne; [done|]. by apply Hki.
  - exists os. cbn [Meta.stores]. by rewrite lookup_insert_ne.
Qed.

Lemma manageIndexes_has_index store indexes :
  (store = c → n ∈ IndexSchema.name <$> indexes) →
  Meta.triple (Meta.has_index c n ix) (Db.manageIndexes valid_key_path store indexes) (λ _, True).
Proof.
  intros Hdecl. unfold Db.manageIndexes.
  eapply triple_bind; [apply indexNames_has_index|]. intros existing Hex. cbv beta in Hex.
  eapply triple_bind with (Q := λ _, True).
  - apply triple_forEach. intros i _. unfold Meta.includes.
    case_bool_decide as Hi; cbn [negb]; [by apply triple_ret|].
    apply deleteIndex_has_index. intros -> ->. by apply Hi, Hdecl.
  - intros _ _. apply triple_forEach. intros i _. unfold Meta.includes.
    case_bool_decide as Hi; cbn [negb]; [by apply triple_ret|].
    apply createIndex_has_index. intros -> Heq. apply Hi. rewrite Heq. by apply Hex.
Qed.

Lemma manageStore_has_index existing s :
  c ∈ existing →
  (StoreSchema.name s = c → n ∈ StoreSchema.index_names s ∨ StoreSchema.indexes s = None) →
  Meta.triple (Meta.has_index c n ix) (Db.manageStore valid_key_path existing s) (λ _, True).
Proof.
  intros Hc Hdecl. unfold Db.manageStore.
  eapply triple_bind with (Q := λ store, store = StoreSchema.name s).
  - unfold Meta.includes. case_bool_decide as Hs; cbn [negb].
    + apply objectStore_has_index.
    + apply createObjectStore_has_index. intros Heq. apply Hs. by rewrite Heq.
  - intros store ->. destruct (StoreSchema.indexes s) as [indexes|] eqn:Hidx;
      [|by apply triple_ret].
    apply manageIndexes_has_index. intros Hs. destruct (Hdecl Hs) as [Hn|]; [|done].
    unfold StoreSchema.index_names in Hn. by rewrite Hidx in Hn.
Qed.

Lemma applySchema_has_index stores :
  c ∈ StoreSchema.name <$> stores →
  (∀ s, s ∈ stores → StoreSchema.name s = c →
        n ∈ StoreSchema.index_names s ∨ StoreSchema.indexes s = None) →
  Meta.triple (Meta.has_index c n ix) (Db.applySchema valid_key_path stores) (λ _, True).
Proof.
  intros Hc Hdecl. unfold Db.applySchema.
  eapply triple_bind; [apply objectStoreNames_has_index|]. intros existing Hex.
  cbv beta in Hex.
  eapply triple_bind with (Q := λ _, True).
  - apply triple_forEach. intros k _. unfold Meta.includes.
    case_bool_decide as Hk; cbn [negb]; [by apply triple_ret|].
    apply deleteObjectStore_has_index. by intros ->.
  - intros _ _. apply triple_forEach. intros s Hs.
    apply manageStore_has_index; [done|]. by apply Hdecl.
Qed.

End Untouched.
End UpgradeInvariants.

(** ** Claims about the schema reconciler *)

(** C3: when a step of the reconciliation throws during a version upgrade,
    whatever the steps before it changed, what is persisted after the open
    attempt is what was persisted before it, and the open attempt is rejected
    with a schema-upgrade failure carrying the exception's message. *)
Theorem upgrade_exception_aborts_and_rejects (valid_key_path : KeyPath → bool)
    (persisted : Meta.IDBDatabase) (dbVersion : nat) (stores : list StoreSchema.t)
    (e : Meta.DOMException) (t' : Meta.tx) :
  Meta.version persisted < dbVersion →
  Db.applySchema valid_key_path stores (Meta.Tx (Meta.objectStores persisted) false)
    = (inl e, t') →
  Db.openDB valid_key_path persisted dbVersion stores
  = (persisted, Rejected (String.append "Schema upgrade failed: " (Meta.message e))).
Proof.
  intros Hv Hthrow. unfold Db.openDB, Meta.open.
  destruct (Nat.ltb_spec dbVersion (Meta.version persisted)); [lia|].
  destruct (Nat.eqb_spec dbVersion (Meta.version persisted)); [lia|].
  unfold Db.onupgradeneeded. rewrite Hthrow. reflexivity.
Qed.

Lemma upgrade_exception_aborts_and_rejects_witness :
  Meta.version Sample.v1 < 2
  ∧ Db.applySchema Sample.any_key_path [Sample.products; Sample.products]
      (Meta.Tx (Meta.objectStores Sample.v1) false)
    = (inl Meta.ConstraintError,
       Meta.Tx {["products" := Meta.new_store (Some (KPString "sku")) None]} false)
  ∧ Db.openDB Sample.any_key_path Sample.v1 2 [Sample.products; Sample.products]
    = (Sample.v1,
       Rejected (String.append "Schema upgrade failed: "
                   (Meta.message Meta.ConstraintError))).
Proof.
  split; [vm_compute; lia|]. split; [vm_compute; reflexivity|].
  apply (upgrade_exception_aborts_and_rejects Sample.any_key_path Sample.v1 2
           [Sample.products; Sample.products] Meta.ConstraintError
           (Meta.Tx {["products" := Meta.new_store (Some (KPString "sku")) None]}
              false)).
  - vm_compute; lia.
  - vm_compute; reflexivity.
Defined.

(** C5: an index that is persisted in its container and declared again, by
    name, in the container's spec (in each of them, should the declaration
    name the container more than once) is left as it was by an open of any
    version, with or without an upgrade, successful or not: its key path and
    options are not those of the declaration. *)
Theorem upgrade_leaves_redeclared_index_untouched (valid_key_path : KeyPath → bool)
    (persisted : Meta.IDBDatabase) (dbVersion : nat) (stores : list StoreSchema.t)
    (c n : string) (os : Meta.IDBObjectStore) (ix : Meta.IDBIndex) :
  Meta.objectStores persisted !! c = Some os →
  Meta.os_indexes os !! n = Some ix →
  c ∈ StoreSchema.name <$> stores →
  (∀ s, s ∈ stores → StoreSchema.name s = c → n ∈ StoreSchema.index_names s) →
  ∃ os',
    Meta.objectStores (Db.openDB valid_key_path persisted dbVersion stores).1 !! c
    = Some os'
    ∧ Meta.os_indexes os' !! n = Some ix.
Proof.
  intros Hos Hix Hc Hdecl.
  assert (Meta.has_index c n ix (Meta.Tx (Meta.objectStores persisted) false)) as H0
    by (by exists os).
  assert (∃ os', Meta.objectStores persisted !! c = Some os'
                 ∧ Meta.os_indexes os' !! n = Some ix) as Hp by eauto.
  unfold Db.openDB, Meta.open.
  destruct (_ <? _); [done|]. destruct (_ =? _); [done|].
  unfold Db.onupgradeneeded.
  destruct (applySchema_has_index valid_key_path c n ix stores Hc
              (λ s Hs Hn, or_introl (Hdecl s Hs Hn)) _ H0) as [H1 _].
  destruct (Db.applySchema valid_key_path stores _) as [[e|[]] t']; cbn [snd] in H1.
  - by cbn.
  - destruct (Meta.aborted t'); [done|]. exact H1.
Qed.

Lemma upgrade_leaves_redeclared_index_untouched_witness :
  let redeclared :=
    [Sample.users (Some [{| IndexSchema.name := "by_email";
                            IndexSchema.keyPath := KPArray ["email"; "name"];
                            IndexSchema.options := None |}])] in
  let os := {| Meta.os_keyPath := Some (KPString "id");
               Meta.os_autoIncrement := true;
               Meta.os_indexes :=
                 list_to_map [("by_name", Meta.index_of_schema (KPString "name") None);
                              ("by_age", Meta.index_of_schema (KPString "age") None);
                              ("by_email", Meta.index_of_schema (KPString "email")
                                 (Some {| unique := true; multiEntry := false |}))] |} in
  let ix := {| Meta.ix_keyPath := KPString "email";
               Meta.ix_unique := true; Meta.ix_multiEntry := false |} in
  Meta.objectStores Sample.v1 !! "users" = Some os
  ∧ Meta.os_indexes os !! "by_email" = Some ix
  ∧ "users" ∈ StoreSchema.name <$> redeclared
  ∧ (∀ s, s ∈ redeclared → StoreSchema.name s = "users" →
          "by_email" ∈ StoreSchema.index_names s)
  ∧ ∃ os',
      Meta.objectStores (Db.openDB Sample.any_key_path Sample.v1 2 redeclared).1
        !! "users" = Some os'
      ∧ Meta.os_indexes os' !! "by_email" = Some ix.
Proof.
  intros redeclared os ix.
  assert (Meta.objectStores Sample.v1 !! "users" = Some os) as H1
    by (vm_compute; reflexivity).
  assert (Meta.os_indexes os !! "by_email" = Some ix) as H2
    by (vm_compute; reflexivity).
  assert ("users" ∈ StoreSchema.name <$> redeclared) as H3
    by (apply list_elem_of_here).
  assert (∀ s, s ∈ redeclared → StoreSchema.name s = "users" →
               "by_email" ∈ StoreSchema.index_names s) as H4.
  { intros s Hs _. apply list_elem_of_singleton in Hs as ->. apply list_elem_of_here. }
  repeat (split; [assumption|]).
  exact (upgrade_leaves_redeclared_index_untouched Sample.any_key_path Sample.v1 2
           redeclared "users" "by_email" os ix H1 H2 H3 H4).
Defined.

(** ** The schema reconciler: what a successful run makes *)

Section UpgradeEffect.
Variable valid_key_path : KeyPath → bool.

(** Goals that compare two tests of membership in lists of names. *)
Local Ltac decide_names :=
  repeat match goal with |- context [decide ?P] => destruct (decide P) end;
  try done; exfalso; rewrite ?elem_of_cons in *; intuition (subst; tauto).

(** Case analysis on the first [includes] of the goal. *)
Local Ltac case_includes H :=
  match goal with
  | |- context [Meta.includes ?l ?x] =>
      destruct (Meta.includes l x) eqn:H;
      [apply bool_decide_eq_true in H | apply bool_decide_eq_false in H]
  end.

Lemma with_indexes_id os : Meta.with_indexes os (Meta.os_indexes os) = os.
Proof. by destruct os. Qed.

Lemma with_indexes_twice os im im' :
  Meta.with_indexes (Meta.with_indexes os im) im' = Meta.with_indexes os im'.
Proof. done. Qed.

(** The loop that deletes the stores that are not declared never throws. *)
Lemma delete_stores_loop (desired l : list string) :
  ∀ t, (∀ k, k ∈ l → is_Some (Meta.stores t !! k)) → NoDup l →
  ∃ t',
    Meta.forEach l (λ storeName,
      if negb (Meta.includes desired storeName)
      then Meta.deleteObjectStore storeName else Meta.ret ()) t = (inr (), t')
    ∧ Meta.aborted t' = Meta.aborted t
    ∧ ∀ k, Meta.stores t' !! k
           = if decide (k ∈ l ∧ k ∉ desired) then None else Meta.stores t !! k.
Proof.
  induction l as [|x l IH]; intros t Hl Hnd; cbn [Meta.forEach].
  - exists t. split; [done|split; [done|]]. intros k. case_decide as H; [|done].
    destruct H as [H _]. by apply elem_of_nil in H.
  - apply NoDup_cons in Hnd as [Hx Hnd]. unfold Meta.bind.
    case_includes Hd; cbn [negb Meta.ret].
    + destruct (IH t) as (t' & Hrun & Hab & Hlk); [|done|].
      { intros k Hk. apply Hl. by right. }
      exists t'. split; [done|split; [done|]]. intros k. rewrite Hlk.
      decide_names.
    + unfold Meta.deleteObjectStore at 1.
      destruct (Hl x) as [os Hos]; [by left|]. rewrite Hos.
      destruct (IH (Meta.Tx (delete x (Meta.stores t)) (Meta.aborted t)))
        as (t' & Hrun & Hab & Hlk); [|done|].
      { intros k Hk. cbn [Meta.stores]. rewrite lookup_delete_ne; [|by intros ->].
        apply Hl. by right. }
      exists t'. split; [done|split; [done|]]. intros k. rewrite Hlk. cbn [Meta.stores].
      destruct (decide (k = x)) as [->|Hne].
      * rewrite lookup_delete_eq. decide_names.
      * rewrite lookup_delete_ne by done. decide_names.
Qed.

(** The loop that deletes the indexes that are not declared never throws. *)
Lemma delete_indexes_loop (c : string) (desired l : list string) :
  ∀ t os,
    Meta.stores t !! c = Some os →
    (∀ k, k ∈ l → is_Some (Meta.os_indexes os !! k)) → NoDup l →
    ∃ im',
      Meta.forEach l (λ indexName,
        if negb (Meta.includes desired indexName)
        then Meta.deleteIndex c indexName else Meta.ret ()) t
      = (inr (), Meta.Tx (<[c := Meta.with_indexes os im']> (Meta.stores t))
                   (Meta.aborted t))
      ∧ ∀ k, im' !! k
             = if decide (k ∈ l ∧ k ∉ desired) then None else Meta.os_indexes os !! k.
Proof.
  induction l as [|x l IH]; intros t os Hos Hl Hnd; cbn [Meta.forEach].
  - exists (Meta.os_indexes os). split.
    + rewrite with_indexes_id, insert_id by done. by destruct t.
    + intros k. case_decide as H; [|done]. destruct H as [H _].
      by apply elem_of_nil in H.
  - apply NoDup_cons in Hnd as [Hx Hnd]. unfold Meta.bind.
    case_includes Hd; cbn [negb Meta.ret].
    + destruct (IH t os) as (im' & Hrun & Hlk); [done| |done|].
      { intros k Hk. apply Hl. by right. }
      exists im'. split; [done|]. intros k. rewrite Hlk.
      decide_names.
    + unfold Meta.deleteIndex at 1. rewrite Hos.
      destruct (Hl x) as [ix Hix]; [by left|]. rewrite Hix.
      destruct (IH (Meta.Tx (<[c := Meta.with_indexes os (delete x (Meta.os_indexes os))]>
                               (Meta.stores t)) (Meta.aborted t))
                  (Meta.with_indexes os (delete x (Meta.os_indexes os))))
        as (im' & Hrun & Hlk); [| |done|].
      { cbn [Meta.stores]. by rewrite lookup_insert_eq. }
      { intros k Hk. cbn [Meta.with_indexes Meta.os_indexes].
        rewrite lookup_delete_ne; [|by intros ->]. apply Hl. by right. }
      exists im'. split.
      * rewrite Hrun. cbn [Meta.stores Meta.aborted].
        by rewrite insert_insert_eq, with_indexes_twice.
      * intros k. rewrite Hlk. cbn [Meta.with_indexes Meta.os_indexes].
        destruct (decide (k = x)) as [->|Hne].
        -- rewrite lookup_delete_eq. decide_names.
        -- rewrite lookup_delete_ne by done. decide_names.
Qed.

Lemma createIndex_inr c i kp o t t' :
  Meta.createIndex valid_key_path c i kp o t = (inr (), t') →
  ∃ os, Meta.stores t !! c = Some os ∧ Meta.os_indexes os !! i = None
        ∧ t' = Meta.Tx (<[c := Meta.with_indexes os
                                 (<[i := Meta.index_of_schema kp o]> (Meta.os_indexes os))]>
                          (Meta.stores t)) (Meta.aborted t).
Proof.
  unfold Meta.createIndex. destruct (Meta.stores t !! c) as [os|]; [|done].
  case_bool_decide as Hex; [done|]. repeat (case_match; try done).
  intros [= <-]. exists os. repeat split.
  destruct (Meta.os_indexes os !! i) eqn:E; [|done]. exfalso. apply Hex. eauto.
Qed.

(** The loop that creates the declared indexes which did not exist, when it
    does not throw: no index is overwritten, every declared index that did
    not exist is there with its declared definition, and nothing else. *)
Lemma create_indexes_loop (c : string) (existing : list string) (l : list IndexSchema.t) :
  ∀ t os t',
    Meta.stores t !! c = Some os →
    Meta.forEach l (λ indexSchema,
      if negb (Meta.includes existing (IndexSchema.name indexSchema))
      then Meta.createIndex valid_key_path c (IndexSchema.name indexSchema)
             (IndexSchema.keyPath indexSchema) (IndexSchema.options indexSchema)
      else Meta.ret ()) t = (inr (), t') →
    ∃ im',
      t' = Meta.Tx (<[c := Meta.with_indexes os im']> (Meta.stores t)) (Meta.aborted t)
      ∧ (∀ k ix, Meta.os_indexes os !! k = Some ix → im' !! k = Some ix)
      ∧ (∀ i, i ∈ l → IndexSchema.name i ∉ existing →
              im' !! IndexSchema.name i
              = Some (Meta.index_of_schema (IndexSchema.keyPath i) (IndexSchema.options i)))
      ∧ (∀ k, is_Some (im' !! k) →
              is_Some (Meta.os_indexes os !! k) ∨ k ∈ IndexSchema.name <$> l).
Proof.
  induction l as [|i l IH]; intros t os t' Hos; cbn [Meta.forEach].
  - intros [= <-]. exists (Meta.os_indexes os). split; [|split; [done|split]].
    + rewrite with_indexes_id, insert_id by done. by destruct t.
    + intros j Hj. by apply elem_of_nil in Hj.
    + by left.
  - unfold Meta.bind.
    case_includes Hd; cbn [negb Meta.ret].
    + intros Hrun. destruct (IH t os t' Hos Hrun) as (im' & -> & Ha & Hb & Hc).
      exists im'. split; [done|split; [done|split]].
      * intros j Hj Hne. apply elem_of_cons in Hj as [->|Hj]; [done|]. by apply Hb.
      * intros k Hk. destruct (Hc k Hk); [by left|]. right. rewrite fmap_cons. by right.
    + destruct (Meta.createIndex _ _ _ _ _ t) as [[e|[]] t1] eqn:Hcr; [done|].
      apply createIndex_inr in Hcr as (os1 & Hos1 & Hnone & ->).
      rewrite Hos in Hos1. injection Hos1 as <-. intros Hrun.
      apply IH with (os := Meta.with_indexes os
                             (<[IndexSchema.name i :=
                                  Meta.index_of_schema (IndexSchema.keyPath i)
                                    (IndexSchema.options i)]> (Meta.os_indexes os)))
        in Hrun as (im' & -> & Ha & Hb & Hc);
        [|cbn [Meta.stores]; by rewrite lookup_insert_eq].
      cbn [Meta.stores Meta.aborted Meta.with_indexes Meta.os_indexes] in *.
      exists im'. split; [|split; [|split]].
      * by rewrite insert_insert_eq.
      * intros k ix Hk. apply Ha. rewrite lookup_insert_ne; [done|]. by intros <-; congruence.
      * intros j Hj Hne. apply elem_of_cons in Hj as [->|Hj]; [|by apply Hb].
        apply Ha. by rewrite lookup_insert_eq.
      * intros k Hk. rewrite fmap_cons.
        destruct (decide (k = IndexSchema.name i)) as [->|Hne]; [right; by left|].
        destruct (Hc k Hk) as [H|H]; [|right; by right].
        left. by rewrite lookup_insert_ne in H.
Qed.

(** The index part of the loop body, when it does not throw. *)
Lemma manageIndexes_inr (c : string) (indexes : list IndexSchema.t) t os t' :
  Meta.stores t !! c = Some os →
  Db.manageIndexes valid_key_path c indexes t = (inr (), t') →
  ∃ im',
    t' = Meta.Tx (<[c := Meta.with_indexes os im']> (Meta.stores t)) (Meta.aborted t)
    ∧ dom im' = list_to_set (IndexSchema.name <$> indexes)
    ∧ ∀ i, i ∈ indexes →
        im' !! IndexSchema.name i
        = Some (default (Meta.index_of_schema (IndexSchema.keyPath i) (IndexSchema.options i))
                  (Meta.os_indexes os !! IndexSchema.name i)).
Proof.
  intros Hos. unfold Db.manageIndexes, Meta.bind at 1, Meta.indexNames. rewrite Hos.
  set (existing := elements (dom (Meta.os_indexes os))).
  assert (∀ k, k ∈ existing ↔ is_Some (Meta.os_indexes os !! k)) as Hex.
  { intros k. unfold existing. by rewrite elem_of_elements, elem_of_dom. }
  destruct (delete_indexes_loop c (IndexSchema.name <$> indexes) existing t os Hos)
    as (im1 & Hdel & Hlk1); [by intros k ?%Hex|apply NoDup_elements|].
  unfold Meta.bind. rewrite Hdel. intros Hcr.
  apply create_indexes_loop with (os := Meta.with_indexes os im1) in Hcr
    as (im2 & -> & Ha & Hb & Hc); [|cbn [Meta.stores]; by rewrite lookup_insert_eq].
  cbn [Meta.stores Meta.aborted Meta.with_indexes Meta.os_indexes] in *.
  exists im2. split; [by rewrite insert_insert_eq|].
  assert (∀ i, i ∈ indexes →
            im2 !! IndexSchema.name i
            = Some (default (Meta.index_of_schema (IndexSchema.keyPath i)
                               (IndexSchema.options i))
                      (Meta.os_indexes os !! IndexSchema.name i))) as Hlk.
  { intros i Hi. destruct (Meta.os_indexes os !! IndexSchema.name i) as [ix|] eqn:Hix.
    - apply Ha. rewrite Hlk1, Hix. destruct (decide _) as [[_ Hn]|]; [|done].
      exfalso. apply Hn. by apply list_elem_of_fmap_2.
    - apply Hb; [done|]. rewrite Hex, Hix. by intros [? ?]. }
  split; [|done]. apply set_eq. intros k.
  rewrite elem_of_dom, elem_of_list_to_set. split.
  - intros Hk. destruct (Hc k Hk) as [H1|H1]; [|done].
    rewrite Hlk1 in H1. destruct (decide _) as [|Hn]; [by destruct H1|].
    destruct (decide (k ∈ IndexSchema.name <$> indexes)); [done|].
    exfalso. apply Hn. split; [by apply Hex|done].
  - intros (i & -> & Hi)%list_elem_of_fmap. rewrite (Hlk i Hi). eauto.
Qed.

(** The loop body of [this.stores.forEach], when it does not throw: only
    the declared container is changed, and it is reconciled. *)
Lemma manageStore_inr (existing : list string) (s : StoreSchema.t) t t' :
  Db.manageStore valid_key_path existing s t = (inr (), t') →
  ∃ os',
    t' = Meta.Tx (<[StoreSchema.name s := os']> (Meta.stores t)) (Meta.aborted t)
    ∧ Db.reconciled (Meta.stores t !! StoreSchema.name s) s os'.
Proof.
  unfold Db.manageStore, Meta.bind at 1.
  assert (∀ (t1 : Meta.tx) os,
            Meta.stores t1 !! StoreSchema.name s = Some os →
            match StoreSchema.indexes s with
            | Some indexes => Db.manageIndexes valid_key_path (StoreSchema.name s) indexes
            | None => Meta.ret ()
            end t1 = (inr (), t') →
            ∃ im', t' = Meta.Tx (<[StoreSchema.name s := Meta.with_indexes os im']>
                                   (Meta.stores t1)) (Meta.aborted t1)
                   ∧ match StoreSchema.indexes s with
                     | Some indexes =>
                         dom im' = list_to_set (IndexSchema.name <$> indexes)
                         ∧ ∀ i, i ∈ indexes →
                             im' !! IndexSchema.name i
                             = Some (default (Meta.index_of_schema (IndexSchema.keyPath i)
                                                (IndexSchema.options i))
                                       (Meta.os_indexes os !! IndexSchema.name i))
                     | None => im' = Meta.os_indexes os
                     end) as Hidx.
  { intros t1 os Hos. destruct (StoreSchema.indexes s) as [indexes|].
    - intros Hrun. by apply manageIndexes_inr.
    - intros [= <-]. exists (Meta.os_indexes os). split; [|done].
      rewrite with_indexes_id, insert_id by done. by destruct t1. }
  destruct (negb _).
  - unfold Meta.createObjectStore.
    destruct (negb (from_option _ _ _)); [done|].
    case_bool_decide as Hex; [done|].
    destruct (_ && _); [done|].
    assert (Meta.stores t !! StoreSchema.name s = None) as Hnone.
    { destruct (Meta.stores t !! StoreSchema.name s) eqn:E; [|done].
      exfalso. apply Hex. eauto. }
    intros Hrun. apply Hidx with (os := Meta.new_store (StoreSchema.keyPath s)
                                          (StoreSchema.autoIncrement s)) in Hrun
      as (im' & -> & Him); [|cbn [Meta.stores]; by rewrite lookup_insert_eq].
    cbn [Meta.stores Meta.aborted]. eexists. split; [by rewrite insert_insert_eq|].
    unfold Db.reconciled. rewrite Hnone. cbn [default from_option id].
    split; [done|split; [done|]]. done.
  - unfold Meta.objectStore.
    destruct (Meta.stores t !! StoreSchema.name s) as [os|] eqn:Hos; [|done].
    intros Hrun. apply Hidx with (os := os) in Hrun as (im' & -> & Him); [|done].
    eexists. split; [done|]. unfold Db.reconciled. cbn [default from_option id].
    split; [done|split; [done|]]. done.
Qed.

(** The loop over the declared containers, when it does not throw and the
    declaration names each container once. *)
Lemma manage_stores_loop (existing : list string) (l : list StoreSchema.t) :
  ∀ t t',
    NoDup (StoreSchema.name <$> l) →
    Meta.forEach l (Db.manageStore valid_key_path existing) t = (inr (), t') →
    Meta.aborted t' = Meta.aborted t
    ∧ (∀ k, k ∉ StoreSchema.name <$> l → Meta.stores t' !! k = Meta.stores t !! k)
    ∧ ∀ s, s ∈ l →
        ∃ os', Meta.stores t' !! StoreSchema.name s = Some os'
               ∧ Db.reconciled (Meta.stores t !! StoreSchema.name s) s os'.
Proof.
  induction l as [|s l IH]; intros t t' Hnd; cbn [Meta.forEach].
  - intros [= <-]. split; [done|split; [done|]]. intros s Hs. by apply elem_of_nil in Hs.
  - rewrite fmap_cons in Hnd. apply NoDup_cons in Hnd as [Hs Hnd]. unfold Meta.bind.
    destruct (Db.manageStore _ _ s t) as [[e|[]] t1] eqn:Hrun1; [done|].
    apply manageStore_inr in Hrun1 as (os' & -> & Hrec). intros Hrun.
    apply IH in Hrun as (Hab & Hframe & Hall); [|done].
    cbn [Meta.stores Meta.aborted] in *. split; [done|split].
    + intros k Hk. rewrite fmap_cons, not_elem_of_cons in Hk. destruct Hk as [Hk1 Hk2].
      rewrite Hframe by done. by rewrite lookup_insert_ne.
    + intros s' Hs'. apply elem_of_cons in Hs' as [->|Hs'].
      * exists os'. split; [|done]. rewrite Hframe by done. by rewrite lookup_insert_eq.
      * destruct (Hall s' Hs') as (os'' & Hlk & Hrec'). exists os''. split; [done|].
        rewrite lookup_insert_ne in Hrec'; [done|].
        intros Heq. apply Hs. rewrite Heq. by apply list_elem_of_fmap_2.
Qed.

(** The [try] block of [onupgradeneeded], when it does not throw and the
    declaration names each container once: the containers are exactly the
    declared ones, each reconciled with what was there under its name. *)
Lemma applySchema_inr (stores : list StoreSchema.t) t t' :
  NoDup (StoreSchema.name <$> stores) →
  Db.applySchema valid_key_path stores t = (inr (), t') →
  Meta.aborted t' = Meta.aborted t
  ∧ dom (Meta.stores t') = list_to_set (StoreSchema.name <$> stores)
  ∧ ∀ s, s ∈ stores →
      ∃ os', Meta.stores t' !! StoreSchema.name s = Some os'
             ∧ Db.reconciled (Meta.stores t !! StoreSchema.name s) s os'.
Proof.
  intros Hnd. unfold Db.applySchema, Meta.bind at 1, Meta.objectStoreNames.
  set (existing := elements (dom (Meta.stores t))).
  assert (∀ k, k ∈ existing ↔ is_Some (Meta.stores t !! k)) as Hex.
  { intros k. unfold existing. by rewrite elem_of_elements, elem_of_dom. }
  destruct (delete_stores_loop (StoreSchema.name <$> stores) existing t)
    as (t1 & Hdel & Hab1 & Hlk1); [by intros k ?%Hex|apply NoDup_elements|].
  unfold Meta.bind. rewrite Hdel. intros Hrun.
  apply manage_stores_loop in Hrun as (Hab & Hframe & Hall); [|done].
  split; [congruence|]. split.
  - apply set_eq. intros k. rewrite elem_of_dom, elem_of_list_to_set. split.
    + intros Hk. destruct (decide (k ∈ StoreSchema.name <$> stores)) as [|Hn]; [done|].
      rewrite Hframe, Hlk1 in Hk by done. destruct (decide _) as [|Hn']; [by destruct Hk|].
      exfalso. apply Hn'. split; [by apply Hex|done].
    + intros (s & -> & Hs)%list_elem_of_fmap. destruct (Hall s Hs) as (os' & -> & _). eauto.
  - intros s Hs. destruct (Hall s Hs) as (os' & Hlk & Hrec). exists os'. split; [done|].
    rewrite Hlk1 in Hrec. destruct (decide _) as [[_ Hn]|]; [|done].
    exfalso. apply Hn. by apply list_elem_of_fmap_2.
Qed.

(** [openDB] that resolves after an upgrade has committed the work of the
    [try] block. *)
Lemma openDB_upgraded (persisted : Meta.IDBDatabase) (dbVersion : nat)
    (stores : list StoreSchema.t) (persisted' db : Meta.IDBDatabase) :
  Meta.version persisted < dbVersion →
  Db.openDB valid_key_path persisted dbVersion stores = (persisted', Resolved db) →
  ∃ t', Db.applySchema valid_key_path stores (Meta.Tx (Meta.objectStores persisted) false)
        = (inr (), t')
        ∧ persisted' = {| Meta.version := dbVersion; Meta.objectStores := Meta.stores t' |}
        ∧ db = persisted'.
Proof.
  intros Hv. unfold Db.openDB, Meta.open.
  destruct (Nat.ltb_spec dbVersion (Meta.version persisted)); [lia|].
  destruct (Nat.eqb_spec dbVersion (Meta.version persisted)); [lia|].
  unfold Db.onupgradeneeded.
  destruct (Db.applySchema valid_key_path stores _) as [[e|[]] t'] eqn:Hrun.
  - cbn. intros [= _ ?]. 
  - destruct (Meta.aborted t'); cbn; [done|]. intros [= <- <-]. eauto.
Qed.

(** *** A well-formed declaration upgrades without an exception *)







End UpgradeEffect.

(** C2, as stated, fails for a container declared without an index list:
    [users] is declared with three indexes at version 1 and without an index
    list at version 2; after the upgrade it still has the three indexes,
    while the declaration of version 2 names none. *)
Lemma upgrade_keeps_indexes_without_index_list :
  Db.openDB Sample.any_key_path Meta.fresh 1 Sample.testSchema
    = (Sample.v1, Resolved Sample.v1)
  ∧ Db.openDB Sample.any_key_path Sample.v1 2 Sample.bareSchema
    = (Sample.bare, Resolved Sample.bare)
  ∧ Sample.users None ∈ Sample.bareSchema
  ∧ StoreSchema.index_names (Sample.users None) = []
  ∧ (dom ∘ Meta.os_indexes) <$> Meta.objectStores Sample.bare !! "users"
    = Some (list_to_set ["by_name"; "by_age"; "by_email"])
  ∧ (dom ∘ Meta.os_indexes) <$> Meta.objectStores Sample.bare !! "users"
    ≠ Some (list_to_set (StoreSchema.index_names (Sample.users None))).
Proof.
  split; [vm_compute; reflexivity|]. split; [vm_compute; reflexivity|].
  split; [apply list_elem_of_here|]. split; [reflexivity|].
  split; [vm_compute; reflexivity|]. vm_compute. discriminate.
Qed.

(** C2, amended: after [S1] at version [v1] and then [S2] at a larger version
    [v2], both opens succeeding and [S2] naming each container once, the
    persisted containers are exactly those [S2] declares, and each is
    reconciled with what [S1] left under its name: with an index list
    declared, its indexes are exactly the declared ones by name, those that
    existed keeping their definition; without an index list, its indexes are
    as they were. *)
Theorem upgrade_reconciles_declared_schema (valid_key_path : KeyPath → bool)
    (db0 db1 db2 c1 c2 : Meta.IDBDatabase) (v1 v2 : nat) (S1 S2 : list StoreSchema.t) :
  Meta.version db0 < v1 → v1 < v2 →
  NoDup (StoreSchema.name <$> S2) →
  Db.openDB valid_key_path db0 v1 S1 = (db1, Resolved c1) →
  Db.openDB valid_key_path db1 v2 S2 = (db2, Resolved c2) →
  dom (Meta.objectStores db2) = list_to_set (StoreSchema.name <$> S2)
  ∧ ∀ s, s ∈ S2 →
      ∃ os', Meta.objectStores db2 !! StoreSchema.name s = Some os'
             ∧ Db.reconciled (Meta.objectStores db1 !! StoreSchema.name s) s os'.
Proof.
  intros Hv1 Hv2 Hnd H1 H2.
  apply openDB_upgraded in H1 as (t1 & _ & -> & _); [|done].
  apply openDB_upgraded in H2 as (t2 & Hrun & -> & _); [|done].
  apply applySchema_inr in Hrun as (_ & Hdom & Hall); done.
Qed.

Lemma upgrade_reconciles_declared_schema_witness :
  Meta.version Meta.fresh < 1 ∧ 1 < 2
  ∧ NoDup (StoreSchema.name <$> Sample.v2Schema)
  ∧ Db.openDB Sample.any_key_path Meta.fresh 1 Sample.testSchema
    = (Sample.v1, Resolved Sample.v1)
  ∧ Db.openDB Sample.any_key_path Sample.v1 2 Sample.v2Schema
    = (Sample.v2, Resolved Sample.v2)
  ∧ (dom (Meta.objectStores Sample.v2)
     = list_to_set (StoreSchema.name <$> Sample.v2Schema)
     ∧ ∀ s, s ∈ Sample.v2Schema →
         ∃ os', Meta.objectStores Sample.v2 !! StoreSchema.name s = Some os'
                ∧ Db.reconciled (Meta.objectStores Sample.v1 !! StoreSchema.name s) s os').
Proof.
  assert (Meta.version Meta.fresh < 1) as H1 by (vm_compute; lia).
  assert (1 < 2) as H2 by lia.
  assert (NoDup (StoreSchema.name <$> Sample.v2Schema)) as H3
    by (apply (bool_decide_unpack _); vm_compute; exact I).
  assert (Db.openDB Sample.any_key_path Meta.fresh 1 Sample.testSchema
          = (Sample.v1, Resolved Sample.v1)) as H4 by (vm_compute; reflexivity).
  assert (Db.openDB Sample.any_key_path Sample.v1 2 Sample.v2Schema
          = (Sample.v2, Resolved Sample.v2)) as H5 by (vm_compute; reflexivity).
  repeat (split; [assumption|]).
  exact (upgrade_reconciles_declared_schema Sample.any_key_path Meta.fresh Sample.v1
           Sample.v2 Sample.v1 Sample.v2 1 2 Sample.testSchema Sample.v2Schema
           H1 H2 H3 H4 H5).
Defined.

(** ** The promise adapters *)

Section AdapterFacts.
Context {E A : Type}.

(** The three promises of a write operation after the events of [trace]. *)
Local Abbreviation state_after trace :=
  (foldl Core.deliver (Core.WriteState (E:=E) (A:=A) Pending Pending Pending) trace).

Lemma requestPromise_resolved (trace : list (Core.event A)) x :
  Core.requestPromise (state_after trace) = Resolved x →
  Core.RequestSuccess x ∈ trace.
Proof.
  revert x. induction trace as [|ev trace IH] using rev_ind; intros x; [done|].
  rewrite foldl_snoc, elem_of_app, list_elem_of_singleton.
  destruct (state_after trace) as [r t b]. cbn in IH |- *.
  destruct ev, r; cbn; intros; simplify_eq; auto.
Qed.

Lemma transactionPromise_resolved (trace : list (Core.event A)) u :
  Core.transactionPromise (state_after trace) = Resolved u →
  Core.Complete ∈ trace.
Proof.
  revert u. induction trace as [|ev trace IH] using rev_ind; intros u; [done|].
  rewrite foldl_snoc, elem_of_app, list_elem_of_singleton.
  destruct (state_after trace) as [r t b]. cbn in IH |- *.
  destruct ev, t; cbn; intros; simplify_eq; eauto.
Qed.

(** [Promise.all] is resolved only with the values of its two promises. *)
Lemma both_resolved (trace : list (Core.event A)) x u :
  Core.both (state_after trace) = Resolved (x, u) →
  Core.requestPromise (state_after trace) = Resolved x
  ∧ Core.transactionPromise (state_after trace) = Resolved u.
Proof.
  revert x u. induction trace as [|ev trace IH] using rev_ind; intros x u; [done|].
  rewrite foldl_snoc. destruct (state_after trace) as [r t b]. cbn in IH |- *.
  destruct b as [|[x' u']|e];
    [destruct ev, r, t
    |destruct (IH _ _ eq_refl) as [-> ->]; destruct ev
    |destruct ev, r, t];
    cbn; intros; simplify_eq; auto.
Qed.

(** Once the transaction's promise is rejected, so is [Promise.all]. *)
Lemma transactionPromise_rejected (trace : list (Core.event A)) e :
  Core.transactionPromise (state_after trace) = Rejected e →
  ∃ e', Core.both (state_after trace) = Rejected e'.
Proof.
  revert e. induction trace as [|ev trace IH] using rev_ind; intros e; [done|].
  rewrite foldl_snoc.
  pose proof (both_resolved trace) as Hb.
  destruct (state_after trace) as [r t b]. cbn in IH, Hb |- *.
  destruct b as [|[x' u']|e0];
    [destruct ev, r, t
    |destruct (Hb _ _ eq_refl) as [-> ->]; destruct ev
    |destruct ev, r, t];
    cbn; intros; simplify_eq; eauto;
    by destruct (IH _ eq_refl) as [? ?].
Qed.

(** A promise of [Promise.all] that is rejected stays rejected. *)
Lemma both_rejected_stays (trace more : list (Core.event A)) e :
  Core.both (state_after trace) = Rejected e →
  Core.both (state_after (trace ++ more)) = Rejected e.
Proof.
  induction more as [|ev more IH] using rev_ind; intros Hrej.
  - by rewrite app_nil_r.
  - rewrite app_assoc, foldl_snoc. specialize (IH Hrej).
    destruct (state_after (trace ++ more)) as [r t b]. cbn in IH |- *. subst b.
    by destruct ev, r, t.
Qed.

(** The promise a write operation returns is [Promise.all] without its
    second value. *)
Lemma await_both_resolved (trace : list (Core.event A)) x :
  Core.await_both trace = Resolved x →
  Core.RequestSuccess x ∈ trace ∧ Core.Complete (E:=E) ∈ trace.
Proof.
  unfold Core.await_both.
  destruct (Core.both (state_after trace)) as [|[x' u]|e] eqn:Hb; intros [= <-].
  apply both_resolved in Hb as [Hr Ht].
  eauto using requestPromise_resolved, transactionPromise_resolved.
Qed.

(** A transaction that fails before it completes rejects the operation. *)
Lemma await_both_transaction_failed (trace : list (Core.event A)) n ev m :
  trace !! n = Some ev → Core.transaction_failed ev = true →
  Core.Complete (E:=E) ∉ take n trace → n < m →
  ∃ e, Core.await_both (take m trace) = Rejected e.
Proof.
  intros Hn Hev Hc Hm.
  assert (take m trace = (take n trace ++ [ev]) ++ drop (S n) (take m trace)) as ->.
  { rewrite <- (take_drop (S n) (take m trace)) at 1. f_equal.
    rewrite take_take, Nat.min_l by lia. by apply take_S_r. }
  assert (∃ e, Core.both (state_after (take n trace ++ [ev])) = Rejected e) as [e He].
  { assert (∃ e0, Core.transactionPromise (state_after (take n trace ++ [ev]))
                  = Rejected e0) as [e0 He0];
      [|by eapply transactionPromise_rejected].
    rewrite foldl_snoc.
    pose proof (transactionPromise_resolved (take n trace)) as Ht.
    destruct (state_after (take n trace)) as [r t b]. cbn in Ht |- *.
    destruct t as [|u|e]; [|by destruct (Hc (Ht _ eq_refl))|];
      destruct ev; cbn in Hev |- *; try done; eauto. }
  exists e. unfold Core.await_both. by rewrite (both_rejected_stays _ _ e).
Qed.

End AdapterFacts.

(** ** Claims about the promise adapters *)

(** C4: for each of [add], [put], [delete] and [clear], at any time the
    returned promise is resolved only if the success event of the request
    and the complete event of the transaction have both fired; and once the
    transaction has fired an error or abort event without having completed,
    the promise is rejected, whatever the request did.  The promise the
    operation returns is the one reached after all the events. *)
Theorem write_succeeds_only_after_commit {E K D A : Type}
    (eng : Core.Writes (E:=E) K D) (op : Core.write_op K D A) :
  (∀ n x, Core.call_after n eng op = Resolved x →
     ∃ trace, Core.response eng op = inr trace
              ∧ Core.RequestSuccess x ∈ take n trace
              ∧ Core.Complete ∈ take n trace)
  ∧ (∀ trace n ev m,
       Core.response eng op = inr trace →
       trace !! n = Some ev → Core.transaction_failed ev = true →
       Core.Complete ∉ take n trace → n < m →
       ∃ e, Core.call_after m eng op = Rejected e)
  ∧ (∀ trace, Core.response eng op = inr trace →
       Core.call eng op = Core.call_after (length trace) eng op)
  ∧ (∀ error, Core.response eng op = inl error → Core.call eng op = Rejected error).
Proof.
  assert (Core.call eng op = Core.write (Core.response eng op)) as Hcall
    by (by destruct op).
  unfold Core.call_after. repeat split.
  - intros n x. destruct (Core.response eng op) as [error|trace]; [done|].
    intros [Hr Hc]%await_both_resolved. eauto.
  - intros trace n ev m -> Hn Hev Hc Hm. by eapply await_both_transaction_failed.
  - intros trace Htrace. rewrite Hcall, Htrace. cbn. by rewrite firstn_all.
  - intros error Herr. by rewrite Hcall, Herr.
Qed.

Lemma write_succeeds_only_after_commit_witness :
  (∃ e, Core.call_after 2 Sample.full_disk (Core.Add "users" "Alice") = Rejected e)
  ∧ Core.call Sample.full_disk (Core.Add "users" "Alice")
    = Rejected (Core.DOMError "QuotaExceededError"%string)
  ∧ ∃ trace, Core.response Sample.healthy (Core.Delete "users" 1) = inr trace
             ∧ Core.RequestSuccess () ∈ take 2 trace
             ∧ Core.Complete ∈ take 2 trace.
Proof.
  destruct (write_succeeds_only_after_commit Sample.full_disk
              (Core.Add "users" "Alice")) as (_ & Hfail & Hcall & _).
  destruct (write_succeeds_only_after_commit Sample.healthy
              (Core.Delete (D:=string) "users" 1)) as (Hok & _).
  split; [|split].
  - apply (Hfail [Core.RequestSuccess 1; Core.Abort (Some "QuotaExceededError"%string)]
             1 (Core.Abort (Some "QuotaExceededError"%string)) 2);
      [reflexivity..| |lia].
    cbn. rewrite list_elem_of_singleton. discriminate.
  - rewrite (Hcall _ eq_refl). reflexivity.
  - apply (Hok 2 ()). reflexivity.
Defined.

(** The write operations of [part_005] do not wait for the transaction: on
    an engine where requests succeed and transactions abort, they resolve
    where those of [core.ts] reject. *)
Lemma entry_writes_resolve_without_commit :
  Entry.add Sample.full_disk "users" "Alice" = Resolved 1
  ∧ Core.add Sample.full_disk "users" "Alice"
    = Rejected (Core.DOMError "QuotaExceededError"%string)
  ∧ Entry.delete Sample.full_disk "users" 1 = Resolved ()
  ∧ Core.delete Sample.full_disk "users" 1
    = Rejected (Core.DOMError "QuotaExceededError"%string).
Proof. repeat split. Qed.

(** C10: when the connection can be had, the store exists, requests do not
    fail and the store holds no record under [key], [get] resolves with
    [undefined]; it does not reject. *)
Theorem get_missing_key_resolves_undefined {E K D : Type} `{Countable K}
    (eng : Core.Reads (E:=E) K D) (storeName : string) (key : K) (store : gmap K D) :
  Core.unavailable eng = None →
  Core.fault eng = None →
  Core.records eng !! storeName = Some store →
  store !! key = None →
  Core.get eng storeName key = Resolved None.
Proof.
  intros Hconn Hfault Hstore Hkey.
  unfold Core.get, Core.getTransaction, Core.IDBObjectStore_get.
  by rewrite Hconn, Hstore, Hfault, Hkey.
Qed.

Lemma get_missing_key_resolves_undefined_witness :
  Core.unavailable Sample.one_user = None
  ∧ Core.fault Sample.one_user = None
  ∧ Core.records Sample.one_user !! "users" = Some {[1 := "Alice"%string]}
  ∧ ({[1 := "Alice"%string]} : gmap nat string) !! 2 = None
  ∧ Core.get Sample.one_user "users" 2 = Resolved None.
Proof.
  repeat (split; [reflexivity|]).
  apply (get_missing_key_resolves_undefined Sample.one_user "users" 2
           {[1 := "Alice"%string]}); reflexivity.
Defined.

(** ** Claims about the connection manager *)

(** C7, as stated, fails: a second [getDB] made while the open request of
    the first is still pending issues a second open request. *)
Lemma second_getDB_opens_again :
  let w1 := (Conn.getDB Conn.initial).1 in
  let w2 := (Conn.getDB w1).1 in
  (Conn.getDB Conn.initial).2 = Conn.Await (Conn.Requested 0)
  ∧ Conn.this_db w1 = None ∧ Conn.pending w1 = [0]
  ∧ (Conn.getDB w1).2 = Conn.Await (Conn.Requested 1)
  ∧ Conn.pending w2 = [0; 1] ∧ Conn.open_requests w2 = 2.
Proof. repeat split. Qed.

(** C7, amended: [getDB] made while the handle is set and the connection
    answers returns that connection and asks nothing of the engine; [getDB]
    made while the handle is not set issues one more open request, whether
    or not earlier ones are still pending. *)
Theorem getDB_reuses_only_an_open_connection (w : Conn.world) :
  (∀ db, Conn.this_db w = Some db → db ∉ Conn.lost w →
         Conn.getDB w = (w, Conn.Return db))
  ∧ (Conn.this_db w = None →
     ∃ w', Conn.getDB w = (w', Conn.Await (Conn.Requested (Conn.open_requests w)))
           ∧ Conn.this_db w' = None
           ∧ Conn.open_requests w' = S (Conn.open_requests w)
           ∧ Conn.pending w' = Conn.pending w ++ [Conn.open_requests w]).
Proof.
  split.
  - intros db Hdb Hlost. unfold Conn.getDB, Conn.isConnectionAlive. rewrite Hdb.
    by rewrite bool_decide_eq_false_2.
  - intros Hdb. unfold Conn.getDB, Conn.openDB. rewrite Hdb. eauto.
Qed.

Lemma getDB_reuses_only_an_open_connection_witness :
  let opened := Conn.onsuccess 0 7 (Conn.getDB Conn.initial).1 in
  Conn.getDB opened = (opened, Conn.Return 7)
  ∧ ∃ w', Conn.getDB Conn.initial = (w', Conn.Await (Conn.Requested 0))
          ∧ Conn.this_db w' = None
          ∧ Conn.open_requests w' = 1
          ∧ Conn.pending w' = [0].
Proof.
  intros opened. split.
  - apply (proj1 (getDB_reuses_only_an_open_connection opened) 7); [reflexivity|].
    vm_compute. discriminate.
  - apply (proj2 (getDB_reuses_only_an_open_connection Conn.initial)). reflexivity.
Defined.

(** C8: [close] is a total function of the state; closing twice is closing
    once; without a handle it changes nothing; after it the handle is gone,
    the connection it held has been closed, and the next [getDB] issues a
    new open request. *)
Theorem close_is_idempotent (w : Conn.world) :
  Conn.close (Conn.close w) = Conn.close w
  ∧ (Conn.this_db w = None → Conn.close w = w)
  ∧ Conn.this_db (Conn.close w) = None
  ∧ (∀ db, Conn.this_db w = Some db → db ∈ Conn.closed (Conn.close w))
  ∧ (Conn.getDB (Conn.close w)).2 = Conn.Await (Conn.Requested (Conn.open_requests w))
  ∧ Conn.open_requests (Conn.getDB (Conn.close w)).1 = S (Conn.open_requests w).
Proof.
  unfold Conn.close, Conn.getDB, Conn.openDB.
  destruct (Conn.this_db w) as [db|] eqn:Hdb; cbn; rewrite ?Hdb; cbn.
  - repeat split; [done|]. intros ? [= <-]. set_solver.
  - by repeat split.
Qed.

Lemma close_is_idempotent_witness :
  let opened := Conn.onsuccess 0 7 (Conn.getDB Conn.initial).1 in
  Conn.close (Conn.close opened) = Conn.close opened
  ∧ Conn.close Conn.initial = Conn.initial
  ∧ 7 ∈ Conn.closed (Conn.close opened).
Proof.
  intros opened.
  destruct (close_is_idempotent opened) as (H1 & _ & _ & H4 & _).
  destruct (close_is_idempotent Conn.initial) as (_ & H2 & _).
  split; [exact H1|]. split; [exact (H2 eq_refl)|]. exact (H4 7 eq_refl).
Defined.

(* ===================================================================== *)
(** * Further properties *)
(* ===================================================================== *)

(** ** More on the range query of [core.ts] *)

Section CursorMore.
Context {T Q E Idx : Type}.

(** Once more entries are left than the handler will continue on, what
    comes after them, the end of the cursor or an error, plays no part. *)
Lemma core_drive_past_page (limit offset : IDB.num) (vs : list T) (fin : option E) :
  ∀ res c a,
    IDB.num_le (length vs)
      (IDB.num_add (IDB.num_sub offset a) (IDB.num_sub limit c)) = false →
    drive (Core.onsuccess limit offset) Core.onerror (Core.Iter res c a) vs fin
    = drive (Core.onsuccess limit offset) Core.onerror (Core.Iter res c a) vs None.
Proof.
  induction vs as [|v vs IH]; intros res c a Hgt.
  - by destruct offset, limit.
  - cbn [drive]. unfold Core.onsuccess at 1 3.
    cbn [Core.advanced Core.count Core.results].
    destruct (IDB.lt a offset) eqn:Ha; [|destruct (IDB.lt c limit) eqn:Hc; [|done]].
    + rewrite IH; [done|].
      destruct offset as [o|], limit as [l|];
        cbn [IDB.num_le IDB.num_add IDB.num_sub IDB.lt length] in *; try done.
      apply Nat.leb_gt in Hgt. apply Nat.ltb_lt in Ha. apply Nat.leb_gt. lia.
    + rewrite IH; [done|].
      destruct offset as [o|], limit as [l|];
        cbn [IDB.num_le IDB.num_add IDB.num_sub IDB.lt length] in *; try done.
      apply Nat.leb_gt in Hgt. apply Nat.ltb_lt in Hc. apply Nat.ltb_ge in Ha.
      apply Nat.leb_gt. lia.
Qed.

(** The number of events the handler of [core.ts] sees. *)
Lemma core_drive_events (l o : nat) (vs : list T) :
  ∀ res c a,
    length (drive (Core.onsuccess (E:=E) (IDB.Fin l) (IDB.Fin o)) Core.onerror
              (Core.Iter res c a) vs None).1
    = S (Nat.min (length vs) ((o - a) + (l - c))).
Proof.
  induction vs as [|v vs IH]; intros res c a; [done|].
  cbn [drive]. unfold Core.onsuccess at 1.
  cbn [Core.advanced Core.count Core.results IDB.lt].
  destruct (Nat.ltb_spec a o) as [Ha|Ha]; [|destruct (Nat.ltb_spec c l) as [Hc|Hc]].
  - specialize (IH res c (S a)). destruct (drive _ _ _ vs None) as [tr p].
    cbn [fst length] in *. rewrite IH. lia.
  - specialize (IH (res ++ [v]) (S c) a). destruct (drive _ _ _ vs None) as [tr p].
    cbn [fst length] in *. rewrite IH. lia.
  - cbn [fst length]. lia.
Qed.

(** [findByIndexRange] of [core.ts] with any options, absent ones and
    [Infinity] included, on a cursor that runs to its end: the scan without
    its first [offset] entries, cut to [limit] entries; without options, the
    whole scan. *)
Theorem findByIndexRange_slices_for_all_options (eng : IDB.Engine T Q E Idx)
    (storeName indexName : string) (options : option (RangeOptions Q))
    (index : Idx) (entries : list T) :
  IDB.index_of eng storeName indexName = inr index →
  IDB.openCursor eng index (options ≫= query) (options ≫= direction)
    = IDB.Feed entries None →
  Core.findByIndexRange eng storeName indexName options
  = Resolved (IDB.num_take (default IDB.Infinity (options ≫= limit))
                (IDB.num_drop (default (IDB.Fin 0) (options ≫= offset)) entries))
  ∧ (options = None →
     Core.findByIndexRange eng storeName indexName options = Resolved entries).
Proof.
  intros Hidx Hscan.
  pose proof (core_findByIndexRange_resolves eng storeName indexName options
                index entries Hidx Hscan) as H.
  split; [done|]. intros ->. by rewrite H.
Qed.

(** Consecutive pages of [core.ts] put together are the page of their
    joint size: nothing is lost or repeated between pages. *)
Theorem findByIndexRange_pages_concatenate (eng : IDB.Engine T Q E Idx)
    (storeName indexName : string) (q : option Q)
    (d : option IDB.IDBCursorDirection) (o l l' : nat)
    (index : Idx) (entries : list T) :
  IDB.index_of eng storeName indexName = inr index →
  IDB.openCursor eng index q d = IDB.Feed entries None →
  ∃ r1 r2,
    Core.findByIndexRange eng storeName indexName
      (Some (Build_RangeOptions Q q d (Some (IDB.Fin l)) (Some (IDB.Fin o))))
    = Resolved r1
    ∧ Core.findByIndexRange eng storeName indexName
        (Some (Build_RangeOptions Q q d (Some (IDB.Fin l')) (Some (IDB.Fin (o + l)))))
      = Resolved r2
    ∧ Core.findByIndexRange eng storeName indexName
        (Some (Build_RangeOptions Q q d (Some (IDB.Fin (l + l'))) (Some (IDB.Fin o))))
      = Resolved (r1 ++ r2).
Proof.
  intros Hidx Hscan.
  exists (take l (drop o entries)), (take l' (drop (o + l) entries)).
  rewrite !(core_findByIndexRange_resolves eng storeName indexName _ index entries)
    by done.
  cbn [mbind option_bind limit offset default from_option id IDB.num_take IDB.num_drop].
  repeat split. f_equal.
  by rewrite <- take_take_drop, skipn_skipn, (Nat.add_comm l o).
Qed.

(** [findByIndexRange] of [core.ts] handles at most [offset + limit + 1]
    cursor events, however long the scan is: it does not advance the cursor
    past the page. *)
Theorem findByIndexRange_handles_bounded_events (eng : IDB.Engine T Q E Idx)
    (storeName indexName : string) (q : option Q)
    (d : option IDB.IDBCursorDirection) (o l : nat)
    (index : Idx) (entries : list T) :
  IDB.index_of eng storeName indexName = inr index →
  IDB.openCursor eng index q d = IDB.Feed entries None →
  length (Core.findByIndexRange_run eng storeName indexName
            (Some (Build_RangeOptions Q q d (Some (IDB.Fin l)) (Some (IDB.Fin o))))).1
  = S (Nat.min (length entries) (o + l)).
Proof.
  intros Hidx Hscan. unfold Core.findByIndexRange_run. rewrite Hidx.
  cbn [default from_option id query direction limit offset].
  assert (IDB.openCursor eng index q (Some (default IDB.next d))
          = IDB.Feed entries None) as ->.
  { rewrite <- Hscan. unfold IDB.openCursor. by destruct d. }
  cbn [IDB.values IDB.ending]. rewrite core_drive_events. f_equal. lia.
Qed.

(** A cursor that has more than [offset + limit] entries resolves with the
    page whether or not it would fail later: a failure beyond the page is
    never seen. *)
Theorem findByIndexRange_ignores_failure_past_page (eng : IDB.Engine T Q E Idx)
    (storeName indexName : string) (q : option Q)
    (d : option IDB.IDBCursorDirection) (o l : nat)
    (index : Idx) (entries : list T) (fin : option E) :
  IDB.index_of eng storeName indexName = inr index →
  IDB.openCursor eng index q d = IDB.Feed entries fin →
  o + l < length entries →
  Core.findByIndexRange eng storeName indexName
    (Some (Build_RangeOptions Q q d (Some (IDB.Fin l)) (Some (IDB.Fin o))))
  = Resolved (take l (drop o entries)).
Proof.
  intros Hidx Hscan Hlen. unfold Core.findByIndexRange, Core.findByIndexRange_run.
  rewrite Hidx. cbn [default from_option id query direction limit offset].
  assert (IDB.openCursor eng index q (Some (default IDB.next d))
          = IDB.Feed entries fin) as ->.
  { rewrite <- Hscan. unfold IDB.openCursor. by destruct d. }
  cbn [IDB.values IDB.ending]. rewrite core_drive_past_page.
  - rewrite core_drive_resolves. cbn [app IDB.num_sub IDB.num_take IDB.num_drop].
    by rewrite !Nat.sub_0_r.
  - cbn [IDB.num_le IDB.num_add IDB.num_sub]. apply Nat.leb_gt. lia.
Qed.

(** A cursor that fails after at most [offset + limit] entries rejects the
    call with its error, whatever was collected before. *)
Theorem findByIndexRange_rejects_failure_within_page (eng : IDB.Engine T Q E Idx)
    (storeName indexName : string) (q : option Q)
    (d : option IDB.IDBCursorDirection) (o l : nat)
    (index : Idx) (entries : list T) (e : E) :
  IDB.index_of eng storeName indexName = inr index →
  IDB.openCursor eng index q d = IDB.Feed entries (Some e) →
  length entries ≤ o + l →
  Core.findByIndexRange eng storeName indexName
    (Some (Build_RangeOptions Q q d (Some (IDB.Fin l)) (Some (IDB.Fin o))))
  = Rejected e.
Proof.
  intros Hidx Hscan Hlen. unfold Core.findByIndexRange, Core.findByIndexRange_run.
  rewrite Hidx. cbn [default from_option id query direction limit offset].
  assert (IDB.openCursor eng index q (Some (default IDB.next d))
          = IDB.Feed entries (Some e)) as ->.
  { rewrite <- Hscan. unfold IDB.openCursor. by destruct d. }
  cbn [IDB.values IDB.ending]. apply core_drive_reaches_error.
  cbn [IDB.num_le IDB.num_add IDB.num_sub]. apply Nat.leb_le. lia.
Qed.

End CursorMore.

Lemma findByIndexRange_slices_for_all_options_witness :
  IDB.index_of Sample.engine "users" "by_age" = inr ()
  ∧ IDB.openCursor Sample.engine () None None = IDB.Feed [25; 30; 30; 40] None
  ∧ Core.findByIndexRange Sample.engine "users" "by_age" None
    = Resolved [25; 30; 30; 40].
Proof.
  split; [reflexivity|]. split; [reflexivity|].
  apply (proj2 (findByIndexRange_slices_for_all_options Sample.engine "users" "by_age"
                  None () [25; 30; 30; 40] eq_refl eq_refl)).
  reflexivity.
Defined.

Lemma findByIndexRange_pages_concatenate_witness :
  IDB.index_of Sample.engine "users" "by_age" = inr ()
  ∧ IDB.openCursor Sample.engine () None None = IDB.Feed [25; 30; 30; 40] None
  ∧ ∃ r1 r2,
      Core.findByIndexRange Sample.engine "users" "by_age" (Sample.page 2 1)
      = Resolved r1
      ∧ Core.findByIndexRange Sample.engine "users" "by_age" (Sample.page 1 (1 + 2))
        = Resolved r2
      ∧ Core.findByIndexRange Sample.engine "users" "by_age" (Sample.page (2 + 1) 1)
        = Resolved (r1 ++ r2).
Proof.
  split; [reflexivity|]. split; [reflexivity|].
  apply (findByIndexRange_pages_concatenate Sample.engine "users" "by_age"
           None None 1 2 1 () [25; 30; 30; 40]); reflexivity.
Defined.

Lemma findByIndexRange_handles_bounded_events_witness :
  IDB.index_of Sample.engine "users" "by_age" = inr ()
  ∧ IDB.openCursor Sample.engine () None None = IDB.Feed [25; 30; 30; 40] None
  ∧ length (Core.findByIndexRange_run Sample.engine "users" "by_age"
              (Sample.page 1 1)).1
    = S (Nat.min (length [25; 30; 30; 40]) (1 + 1)).
Proof.
  split; [reflexivity|]. split; [reflexivity|].
  apply (findByIndexRange_handles_bounded_events Sample.engine "users" "by_age"
           None None 1 1 () [25; 30; 30; 40]); reflexivity.
Defined.

Lemma findByIndexRange_ignores_failure_past_page_witness :
  IDB.index_of Sample.failing_engine "users" "by_age" = inr ()
  ∧ IDB.openCursor Sample.failing_engine () None None
    = IDB.Feed [25; 30] (Some "AbortError"%string)
  ∧ 0 + 1 < length [25; 30]
  ∧ Core.findByIndexRange Sample.failing_engine "users" "by_age" (Sample.page 1 0)
    = Resolved (take 1 (drop 0 [25; 30])).
Proof.
  split; [reflexivity|]. split; [reflexivity|]. split; [simpl; lia|].
  apply (findByIndexRange_ignores_failure_past_page Sample.failing_engine
           "users" "by_age" None None 0 1 () [25; 30] (Some "AbortError"%string));
    [reflexivity|reflexivity|simpl; lia].
Defined.

Lemma findByIndexRange_rejects_failure_within_page_witness :
  IDB.index_of Sample.failing_engine "users" "by_age" = inr ()
  ∧ IDB.openCursor Sample.failing_engine () None None
    = IDB.Feed [25; 30] (Some "AbortError"%string)
  ∧ length [25; 30] ≤ 1 + 1
  ∧ Core.findByIndexRange Sample.failing_engine "users" "by_age" (Sample.page 1 1)
    = Rejected "AbortError"%string.
Proof.
  split; [reflexivity|]. split; [reflexivity|]. split; [simpl; lia|].
  apply (findByIndexRange_rejects_failure_within_page Sample.failing_engine
           "users" "by_age" None None 1 1 () [25; 30] "AbortError"%string);
    [reflexivity|reflexivity|simpl; lia].
Defined.

(** ** More on the range query of [part_005] *)

Section EntryMore.
Context {T Q E Idx : Type}.

Lemma entry_onsuccess_as_core (options : RangeOptions Q) (s : Core.iter) (cursor : option T) :
  Entry.onsuccess (E:=E) options (Entry.of_core s) cursor
  = match Core.onsuccess
            (default IDB.Infinity (limit (without_zero_limit options)))
            (default (IDB.Fin 0) (offset options)) s cursor with
    | Continue s' => Continue (Entry.of_core s')
    | Settle p => Settle p
    end.
Proof.
  destruct (limit options) as [[[|l]|]|] eqn:Hl.
  - destruct s as [res c a], cursor as [v|]; [|done].
    unfold Entry.onsuccess, Core.onsuccess, Entry.of_core, without_zero_limit.
    rewrite Hl. cbn [Core.results Core.count Core.advanced Entry.results Entry.count
      Entry.skipped limit IDB.truthy default from_option id andb IDB.lt].
    destruct (offset options) as [[[|o]|]|];
      cbn [IDB.truthy default from_option id andb IDB.lt]; try done.
    by destruct (Nat.ltb_spec a (S o)).
  - rewrite entry_onsuccess_core by (by rewrite Hl).
    unfold without_zero_limit. cbn [limit]. by rewrite Hl.
  - rewrite entry_onsuccess_core by (by rewrite Hl).
    unfold without_zero_limit. cbn [limit]. by rewrite Hl.
  - rewrite entry_onsuccess_core by (by rewrite Hl).
    unfold without_zero_limit. cbn [limit]. by rewrite Hl.
Qed.

Lemma entry_drive_as_core (options : RangeOptions Q) (vs : list T) (fin : option E) :
  ∀ s, drive (Entry.onsuccess options) Entry.onerror (Entry.of_core s) vs fin
       = drive (Core.onsuccess
                  (default IDB.Infinity (limit (without_zero_limit options)))
                  (default (IDB.Fin 0) (offset options))) Core.onerror s vs fin.
Proof.
  induction vs as [|v vs IH]; intros s; cbn [drive].
  - rewrite entry_onsuccess_as_core.
    destruct fin; [done|]. by destruct (Core.onsuccess _ _ s None).
  - rewrite entry_onsuccess_as_core.
    destruct (Core.onsuccess _ _ s (Some v)) as [s'|p]; [|done]. by rewrite IH.
Qed.

(** What [part_005] does with [options] is what [core.ts] does with the
    same options once a limit of [0] is taken out. *)
Lemma entry_findByIndexRange_as_core (eng : IDB.Engine T Q E Idx)
    (storeName indexName : string) (options : option (RangeOptions Q)) :
  Entry.findByIndexRange eng storeName indexName options
  = Core.findByIndexRange eng storeName indexName (without_zero_limit <$> options).
Proof.
  unfold Entry.findByIndexRange, Core.findByIndexRange,
    Entry.findByIndexRange_run, Core.findByIndexRange_run.
  destruct (IDB.index_of eng storeName indexName) as [err|index]; [done|].
  change (Entry.Iter [] 0 0) with (Entry.of_core (Core.Iter (T:=T) [] 0 0)).
  rewrite entry_drive_as_core. unfold IDB.openCursor.
  destruct options as [o|]; cbn [fmap option_fmap option_map default from_option id].
  - reflexivity.
  - reflexivity.
Qed.

(** With a limit of [0], [findByIndexRange] of [part_005] returns every
    entry of the scan after the offset. *)
Theorem entry_findByIndexRange_limit_0_returns_all (eng : IDB.Engine T Q E Idx)
    (storeName indexName : string) (q : option Q)
    (d : option IDB.IDBCursorDirection) (o : nat) (index : Idx) (entries : list T) :
  IDB.index_of eng storeName indexName = inr index →
  IDB.openCursor eng index q d = IDB.Feed entries None →
  Entry.findByIndexRange eng storeName indexName
    (Some (Build_RangeOptions Q q d (Some (IDB.Fin 0)) (Some (IDB.Fin o))))
  = Resolved (drop o entries).
Proof.
  intros Hidx Hscan. rewrite entry_findByIndexRange_as_core.
  by rewrite (core_findByIndexRange_resolves eng storeName indexName _ index entries).
Qed.

End EntryMore.

Lemma entry_findByIndexRange_limit_0_returns_all_witness :
  IDB.index_of Sample.engine "users" "by_age" = inr ()
  ∧ IDB.openCursor Sample.engine () None None = IDB.Feed [25; 30; 30; 40] None
  ∧ Entry.findByIndexRange Sample.engine "users" "by_age" (Sample.page 0 1)
    = Resolved (drop 1 [25; 30; 30; 40]).
Proof.
  split; [reflexivity|]. split; [reflexivity|].
  apply (entry_findByIndexRange_limit_0_returns_all Sample.engine "users" "by_age"
           None None 1 () [25; 30; 30; 40]); reflexivity.
Defined.



(** ** The query builder *)

Section BuilderFacts.
Context {T E Idx : Type}.





End BuilderFacts.





(** Without [where] (or with an empty index name) the builder reads the
    whole store: [toArray] is [getAll] whatever limit, offset and direction
    were set, and [last] resolves with the same record as [first], the first
    one of [getAll]. *)
Theorem builder_without_index_ignores_options {T E Idx : Type}
    (db : Query.Db T E Idx) (b : Query.t) (l o : IDB.num) :
  Query.truthy_string (Query.b_indexName b) = false →
  Query.toArray db (Query.limit l (Query.offset o (Query.reverse b)))
  = Query.settled (Query.all db (Query.b_storeName b))
  ∧ (Query.last db b).2 = (Query.first db b).2
  ∧ (Query.first db b).2
    = Query.first_of (Query.settled (Query.all db (Query.b_storeName b))).
Proof.
  intros Hidx. unfold Query.last, Query.first, Query.toArray.
  cbn [snd Query.limit Query.offset Query.reverse Query.b_indexName Query.b_storeName].
  by rewrite Hidx.
Qed.

Lemma builder_without_index_ignores_options_witness :
  Query.truthy_string (Query.b_indexName (Query.new "users")) = false
  ∧ Query.toArray Sample.users_db
      (Query.limit (IDB.Fin 2) (Query.offset (IDB.Fin 1) (Query.reverse (Query.new "users"))))
    = Resolved [30; 25; 30; 40]
  ∧ (Query.last Sample.users_db (Query.new "users")).2 = Resolved (Some 30)
  ∧ (Query.first Sample.users_db (Query.new "users")).2 = Resolved (Some 30).
Proof.
  destruct (builder_without_index_ignores_options Sample.users_db (Query.new "users")
              (IDB.Fin 2) (IDB.Fin 1) eq_refl) as (H1 & H2 & H3).
  split; [reflexivity|]. split; [exact H1|]. split.
  - rewrite H2. exact H3.
  - exact H3.
Defined.

(** After [equals] with a falsy key, [0] or the empty string, [count]
    counts the whole store, not the entries of the index under that key. *)
Theorem count_with_falsy_key_counts_store {T E Idx : Type}
    (db : Query.Db T E Idx) (b : Query.t) (v : Query.Key) :
  Query.truthy_value (Some (Query.VKey v)) = false →
  Query.count db (Query.equals v b)
  = Query.settled (Query.counted db (Query.b_storeName b)).
Proof.
  intros Hv. unfold Query.count, Query.equals, Query.set_query.
  cbn [Query.b_indexName Query.b_query Query.b_storeName]. rewrite Hv.
  by rewrite andb_false_r.
Qed.

Lemma count_with_falsy_key_counts_store_witness :
  Query.truthy_value (Some (Query.VKey (Query.KNum 0))) = false
  ∧ Query.count Sample.users_db (Query.equals (Query.KNum 0) Sample.by_age_query)
    = Resolved 4.
Proof.
  split; [reflexivity|].
  apply (count_with_falsy_key_counts_store Sample.users_db Sample.by_age_query
           (Query.KNum 0)).
  reflexivity.
Defined.

(** ** More on opening and upgrading ([db.ts]) *)

Section UpgradeMore.
Variable valid_key_path : KeyPath → bool.

(** Store [c] exists with key path [kp] and auto-increment flag [ai]. *)
Local Abbreviation has_params c kp ai :=
  (λ t : Meta.tx, ∃ os, Meta.stores t !! c = Some os
                        ∧ Meta.os_keyPath os = kp ∧ Meta.os_autoIncrement os = ai).

Lemma deleteObjectStore_params c kp ai k :
  k ≠ c → Meta.triple (has_params c kp ai) (Meta.deleteObjectStore k) (λ _, True).
Proof.
  intros Hk t (os & Hos & Hp). unfold Meta.deleteObjectStore.
  destruct (Meta.stores t !! k); cbn [snd fst]; (split; [|done]).
  - exists os. cbn [Meta.stores]. by rewrite lookup_delete_ne.
  - by exists os.
Qed.

Lemma createObjectStore_params c kp ai k kp' ai' :
  Meta.triple (has_params c kp ai)
    (Meta.createObjectStore valid_key_path k kp' ai') (λ _, True).
Proof.
  intros t (os & Hos & Hp). unfold Meta.createObjectStore.
  destruct (negb _); [by split; [exists os|]|].
  case_bool_decide as Hex; [by split; [exists os|]|].
  destruct (_ && _); cbn [snd fst]; (split; [|done]); [by exists os|].
  exists os. cbn [Meta.stores]. rewrite lookup_insert_ne; [done|].
  intros ->. apply Hex. eauto.
Qed.

Lemma objectStore_params c kp ai k :
  Meta.triple (has_params c kp ai) (Meta.objectStore k) (λ _, True).
Proof.
  intros t Ht. unfold Meta.objectStore. by destruct (Meta.stores t !! k).
Qed.

Lemma indexNames_params c kp ai k :
  Meta.triple (has_params c kp ai) (Meta.indexNames k) (λ _, True).
Proof.
  intros t Ht. unfold Meta.indexNames. by destruct (Meta.stores t !! k).
Qed.

Lemma deleteIndex_params c kp ai k i :
  Meta.triple (has_params c kp ai) (Meta.deleteIndex k i) (λ _, True).
Proof.
  intros t (os & Hos & Hp). unfold Meta.deleteIndex.
  destruct (Meta.stores t !! k) as [os'|] eqn:Hk; [|by split; [exists os|]].
  destruct (Meta.os_indexes os' !! i); cbn [snd fst]; (split; [|done]); [|by exists os].
  destruct (decide (k = c)) as [->|Hne].
  - rewrite Hos in Hk. injection Hk as <-.
    eexists. cbn [Meta.stores]. rewrite lookup_insert_eq. by split.
  - exists os. cbn [Meta.stores]. by rewrite lookup_insert_ne.
Qed.

Lemma createIndex_params c kp ai k i kp' o :
  Meta.triple (has_params c kp ai)
    (Meta.createIndex valid_key_path k i kp' o) (λ _, True).
Proof.
  intros t (os & Hos & Hp). unfold Meta.createIndex.
  destruct (Meta.stores t !! k) as [os'|] eqn:Hk; [|by split; [exists os|]].
  repeat (case_match; cbn [snd fst]); (split; [|done]); try (by exists os).
  destruct (decide (k = c)) as [->|Hne].
  - rewrite Hos in Hk. injection Hk as <-.
    eexists. cbn [Meta.stores]. rewrite lookup_insert_eq. by split.
  - exists os. cbn [Meta.stores]. by rewrite lookup_insert_ne.
Qed.

Lemma applySchema_params c kp ai stores :
  c ∈ StoreSchema.name <$> stores →
  Meta.triple (has_params c kp ai) (Db.applySchema valid_key_path stores) (λ _, True).
Proof.
  intros Hc. unfold Db.applySchema.
  eapply triple_bind with (Q := λ _, True); [by intros t Ht|]. intros existing _.
  eapply triple_bind with (Q := λ _, True).
  { apply triple_forEach. intros k _. unfold Meta.includes.
    case_bool_decide as Hk; cbn [negb]; [by apply triple_ret|].
    apply deleteObjectStore_params. by intros ->. }
  intros _ _. apply triple_forEach. intros s _. unfold Db.manageStore.
  eapply triple_bind with (Q := λ _, True).
  { case_match; [apply createObjectStore_params | apply objectStore_params]. }
  intros store _. case_match; [|by apply triple_ret]. unfold Db.manageIndexes.
  eapply triple_bind with (Q := λ _, True); [apply indexNames_params|]. intros ex _.
  eapply triple_bind with (Q := λ _, True).
  { apply triple_forEach. intros i _. case_match; [apply deleteIndex_params|].
    by apply triple_ret. }
  intros _ _. apply triple_forEach. intros i _.
  case_match; [apply createIndex_params | by apply triple_ret].
Qed.

(** A store that is reconciled with itself, its indexes being those its
    declaration names, is as it was. *)
Lemma reconciled_same (s : StoreSchema.t) (os0 os' : Meta.IDBObjectStore) :
  (∀ indexes, StoreSchema.indexes s = Some indexes →
     dom (Meta.os_indexes os0) = list_to_set (IndexSchema.name <$> indexes)) →
  Db.reconciled (Some os0) s os' → os' = os0.
Proof.
  intros Hdom (Hkp & Hai & Hidx). cbn [default from_option id] in *.
  assert (Meta.os_indexes os' = Meta.os_indexes os0) as Him.
  { destruct (StoreSchema.indexes s) as [indexes|]; [|done].
    destruct Hidx as [Hdom' Hlk]. specialize (Hdom _ eq_refl).
    apply map_eq. intros k.
    destruct (decide (k ∈ IndexSchema.name <$> indexes)) as [Hk|Hk].
    - apply list_elem_of_fmap in Hk as (i & -> & Hi). rewrite (Hlk i Hi).
      assert (is_Some (Meta.os_indexes os0 !! IndexSchema.name i)) as [ix ->]; [|done].
      apply elem_of_dom. rewrite Hdom, elem_of_list_to_set.
      by apply list_elem_of_fmap_2.
    - assert (Meta.os_indexes os' !! k = None) as ->.
      { apply not_elem_of_dom. by rewrite Hdom', elem_of_list_to_set. }
      symmetry. apply not_elem_of_dom. by rewrite Hdom, elem_of_list_to_set. }
  destruct os', os0. cbn in *. by subst.
Qed.

End UpgradeMore.



(** An existing store that is declared again keeps its key path and its
    auto-increment flag through every open, whatever the declaration says
    about them. *)
Theorem upgrade_keeps_store_parameters (valid_key_path : KeyPath → bool)
    (persisted : Meta.IDBDatabase) (dbVersion : nat) (stores : list StoreSchema.t)
    (c : string) (os : Meta.IDBObjectStore) :
  Meta.objectStores persisted !! c = Some os →
  c ∈ StoreSchema.name <$> stores →
  ∃ os',
    Meta.objectStores (Db.openDB valid_key_path persisted dbVersion stores).1 !! c
    = Some os'
    ∧ Meta.os_keyPath os' = Meta.os_keyPath os
    ∧ Meta.os_autoIncrement os' = Meta.os_autoIncrement os.
Proof.
  intros Hos Hc.
  assert (∃ os', Meta.objectStores persisted !! c = Some os'
                 ∧ Meta.os_keyPath os' = Meta.os_keyPath os
                 ∧ Meta.os_autoIncrement os' = Meta.os_autoIncrement os) as Hp by eauto.
  unfold Db.openDB, Meta.open.
  destruct (_ <? _); [done|]. destruct (_ =? _); [done|].
  unfold Db.onupgradeneeded.
  destruct (applySchema_params valid_key_path c (Meta.os_keyPath os)
              (Meta.os_autoIncrement os) stores Hc
              (Meta.Tx (Meta.objectStores persisted) false) Hp) as [H1 _].
  destruct (Db.applySchema valid_key_path stores _) as [[e|[]] t']; cbn [snd] in H1.
  - by cbn.
  - destruct (Meta.aborted t'); [done|]. exact H1.
Qed.

Lemma upgrade_keeps_store_parameters_witness :
  let redeclared :=
    [{| StoreSchema.name := "users"; StoreSchema.keyPath := Some (KPString "email");
        StoreSchema.autoIncrement := Some false; StoreSchema.indexes := None |}] in
  ∃ os,
    Meta.objectStores Sample.v1 !! "users" = Some os
    ∧ "users" ∈ StoreSchema.name <$> redeclared
    ∧ ∃ os',
        Meta.objectStores (Db.openDB Sample.any_key_path Sample.v1 2 redeclared).1
          !! "users" = Some os'
        ∧ Meta.os_keyPath os' = Meta.os_keyPath os
        ∧ Meta.os_autoIncrement os' = Meta.os_autoIncrement os.
Proof.
  intros redeclared.
  destruct (Meta.objectStores Sample.v1 !! "users") as [os|] eqn:Hos;
    [|vm_compute in Hos; discriminate].
  exists os. split; [reflexivity|]. split; [apply list_elem_of_here|].
  apply (upgrade_keeps_store_parameters Sample.any_key_path Sample.v1 2 redeclared
           "users" os Hos).
  apply list_elem_of_here.
Defined.

(** Upgrading again with the declaration that is already in place changes
    no store and no index: after [S] at one version, [S] at a larger version
    leaves the containers as they are. *)
Theorem upgrade_with_same_schema_changes_nothing (valid_key_path : KeyPath → bool)
    (db1 db2 db3 c2 c3 : Meta.IDBDatabase) (v2 v3 : nat) (S : list StoreSchema.t) :
  Meta.version db1 < v2 → v2 < v3 →
  NoDup (StoreSchema.name <$> S) →
  Db.openDB valid_key_path db1 v2 S = (db2, Resolved c2) →
  Db.openDB valid_key_path db2 v3 S = (db3, Resolved c3) →
  Meta.objectStores db3 = Meta.objectStores db2.
Proof.
  intros Hv2 Hv3 Hnd H2 H3.
  apply openDB_upgraded in H2 as (t2 & Hrun2 & -> & _); [|done].
  apply openDB_upgraded in H3 as (t3 & Hrun3 & -> & _); [|done].
  apply applySchema_inr in Hrun2 as (_ & Hdom2 & Hall2); [|done].
  apply applySchema_inr in Hrun3 as (_ & Hdom3 & Hall3); [|done].
  cbn [Meta.stores Meta.objectStores] in *. apply map_eq. intros k.
  destruct (decide (k ∈ StoreSchema.name <$> S)) as [Hk|Hk].
  - apply list_elem_of_fmap in Hk as (s & -> & Hs).
    destruct (Hall2 s Hs) as (os2 & Hlk2 & Hrec2).
    destruct (Hall3 s Hs) as (os3 & Hlk3 & Hrec3).
    rewrite Hlk3, Hlk2. f_equal. rewrite Hlk2 in Hrec3.
    apply (reconciled_same s os2 os3); [|done].
    intros indexes Hidx. destruct Hrec2 as (_ & _ & Hi). rewrite Hidx in Hi.
    by destruct Hi.
  - assert (Meta.stores t3 !! k = None) as ->.
    { apply not_elem_of_dom. by rewrite Hdom3, elem_of_list_to_set. }
    symmetry. apply not_elem_of_dom. by rewrite Hdom2, elem_of_list_to_set.
Qed.

Lemma upgrade_with_same_schema_changes_nothing_witness :
  let db3 := (Db.openDB Sample.any_key_path Sample.v2 3 Sample.v2Schema).1 in
  Meta.version Sample.v1 < 2 ∧ 2 < 3
  ∧ NoDup (StoreSchema.name <$> Sample.v2Schema)
  ∧ Db.openDB Sample.any_key_path Sample.v1 2 Sample.v2Schema
    = (Sample.v2, Resolved Sample.v2)
  ∧ Db.openDB Sample.any_key_path Sample.v2 3 Sample.v2Schema = (db3, Resolved db3)
  ∧ Meta.objectStores db3 = Meta.objectStores Sample.v2.
Proof.
  intros db3.
  assert (Meta.version Sample.v1 < 2) as H1 by (vm_compute; lia).
  assert (2 < 3) as H2 by lia.
  assert (NoDup (StoreSchema.name <$> Sample.v2Schema)) as H3
    by (apply (bool_decide_unpack _); vm_compute; exact I).
  assert (Db.openDB Sample.any_key_path Sample.v1 2 Sample.v2Schema
          = (Sample.v2, Resolved Sample.v2)) as H4 by (vm_compute; reflexivity).
  assert (Db.openDB Sample.any_key_path Sample.v2 3 Sample.v2Schema
          = (db3, Resolved db3)) as H5 by (vm_compute; reflexivity).
  repeat (split; [assumption|]).
  exact (upgrade_with_same_schema_changes_nothing Sample.any_key_path Sample.v1
           Sample.v2 db3 Sample.v2 db3 2 3 Sample.v2Schema H1 H2 H3 H4 H5).
Defined.

(** ** More on the connection ([db.ts]) *)

(** A connection that fails the liveness probe is not reopened: [getDB]
    calls [openDB], which finds the handle set and resolves with it, so no
    open request is issued and the caller gets the lost connection back. *)
Theorem getDB_does_not_reopen_lost_connection (w : Conn.world) (db : nat) :
  Conn.this_db w = Some db → db ∈ Conn.lost w →
  Conn.isConnectionAlive w = false
  ∧ Conn.getDB w = (w, Conn.Await (Conn.Listed db))
  ∧ Conn.getDB_resume db w = (w, db).
Proof.
  intros Hdb Hlost. unfold Conn.getDB, Conn.isConnectionAlive, Conn.openDB,
    Conn.getDB_resume.
  rewrite Hdb, bool_decide_eq_true_2 by done. cbn [negb].
  repeat split. f_equal. destruct w; cbn in *. by subst.
Qed.

Lemma getDB_does_not_reopen_lost_connection_witness :
  let w := Conn.World (Some 7) (Some true) 1 1 [] ∅ {[7]} in
  Conn.this_db w = Some 7 ∧ 7 ∈ Conn.lost w
  ∧ Conn.isConnectionAlive w = false
  ∧ Conn.getDB w = (w, Conn.Await (Conn.Listed 7))
  ∧ Conn.getDB_resume 7 w = (w, 7).
Proof.
  intros w.
  assert (7 ∈ Conn.lost w) as Hlost by (vm_compute; reflexivity).
  split; [reflexivity|]. split; [exact Hlost|].
  exact (getDB_does_not_reopen_lost_connection w 7 eq_refl Hlost).
Defined.

(** When two open requests both succeed (two [getDB] calls made before the
    first success), the handle ends up on the second connection, and [close]
    closes that one only: the first connection stays open. *)
Theorem first_of_two_connections_is_never_closed (w : Conn.world)
    (r1 r2 db1 db2 : nat) :
  db1 ≠ db2 → db1 ∉ Conn.closed w →
  let w' := Conn.onsuccess r2 db2 (Conn.onsuccess r1 db1 w) in
  Conn.this_db w' = Some db2
  ∧ Conn.closed (Conn.close w') = {[db2]} ∪ Conn.closed w
  ∧ (db1 ∉ Conn.closed (Conn.close w'))
  ∧ Conn.close (Conn.close w') = Conn.close w'.
Proof.
  intros Hne Hopen w'. unfold w', Conn.close, Conn.onsuccess.
  cbn [Conn.this_db Conn.closed]. repeat split.
  by intros [?%elem_of_singleton|?]%elem_of_union.
Qed.

Lemma first_of_two_connections_is_never_closed_witness :
  let w := (Conn.getDB (Conn.getDB Conn.initial).1).1 in
  let w' := Conn.onsuccess 1 8 (Conn.onsuccess 0 7 w) in
  7 ≠ 8 ∧ (7 ∉ Conn.closed w)
  ∧ Conn.this_db w' = Some 8
  ∧ Conn.closed (Conn.close w') = {[8]} ∪ Conn.closed w
  ∧ (7 ∉ Conn.closed (Conn.close w'))
  ∧ Conn.close (Conn.close w') = Conn.close w'.
Proof.
  intros w w'.
  assert (7 ≠ 8) as H1 by lia.
  assert (7 ∉ Conn.closed w) as H2 by (vm_compute; discriminate).
  split; [exact H1|]. split; [exact H2|].
  exact (first_of_two_connections_is_never_closed w 0 1 7 8 H1 H2).
Defined.

(** One more [beforeunload] listener is added by every success of an open
    that follows a [close]; [close] removes none.  After [n] rounds of
    opening and closing in a browser there are [n] more listeners. *)
Theorem reopening_adds_listeners (n : nat) (w : Conn.world) (request db : nat) :
  Conn.window w = Some false →
  Conn.listeners
    (Nat.iter n (λ w, Conn.close (Conn.onsuccess request db w)) w)
  = Conn.listeners w + n
  ∧ Conn.window
      (Nat.iter n (λ w, Conn.close (Conn.onsuccess request db w)) w)
    = Some false.
Proof.
  intros Hw. induction n as [|n [IHl IHw]]; [by rewrite Nat.add_0_r|].
  rewrite !Nat.iter_succ. remember (Nat.iter n _ w) as w0 eqn:Hw0. clear Hw0.
  unfold Conn.close, Conn.onsuccess.
  cbn [Conn.this_db Conn.window Conn.listeners]. rewrite IHw, IHl.
  rewrite !bool_decide_eq_true_2 by done. split; [lia|done].
Qed.

Lemma reopening_adds_listeners_witness :
  Conn.window Conn.initial = Some false
  ∧ Conn.listeners
      (Nat.iter 3 (λ w, Conn.close (Conn.onsuccess 0 7 w)) Conn.initial)
    = Conn.listeners Conn.initial + 3
  ∧ Conn.window
      (Nat.iter 3 (λ w, Conn.close (Conn.onsuccess 0 7 w)) Conn.initial)
    = Some false.
Proof.
  split; [reflexivity|].
  exact (reopening_adds_listeners 3 Conn.initial 0 7 eq_refl).
Defined.

(** ** Opening and upgrading in [part_005] *)

Section EntryUpgrade.
Variable valid_key_path : KeyPath → bool.

(** Store [c] is exactly [os]. *)
Local Abbreviation is_store c os := (λ t : Meta.tx, Meta.stores t !! c = Some os).

Lemma createIndex_is_store c os k i kp o :
  k ≠ c →
  Meta.triple (is_store c os) (Meta.createIndex valid_key_path k i kp o) (λ _, True).
Proof.
  intros Hk t Hos. unfold Meta.createIndex.
  destruct (Meta.stores t !! k) as [os'|]; [|done].
  repeat (case_match; cbn [snd fst]); (split; [|done]); try done.
  cbn [Meta.stores]. by rewrite lookup_insert_ne.
Qed.

Lemma createStore_is_store c os (s : StoreSchema.t) :
  Meta.triple (is_store c os) (EntryOpen.createStore valid_key_path s) (λ _, True).
Proof.
  unfold EntryOpen.createStore.
  eapply triple_bind with (Q := λ present, StoreSchema.name s = c → present = true).
  { intros t Hos. split; [done|]. intros present [= <-] Hc.
    apply bool_decide_eq_true_2. rewrite Hc, Hos. eauto. }
  intros present Hpresent. destruct present; cbn [negb]; [by apply triple_ret|].
  assert (StoreSchema.name s ≠ c) as Hne by (by intros ?%Hpresent).
  eapply triple_bind with (Q := λ store, store = StoreSchema.name s).
  - intros t Hos. unfold Meta.createObjectStore.
    repeat (case_match; cbn [snd fst]); (split; [|by intros ? [= <-]]); try done.
    cbn [Meta.stores]. by rewrite lookup_insert_ne.
  - intros store ->. apply triple_forEach. intros i _.
    by apply createIndex_is_store.
Qed.

Lemma entry_applySchema_is_store c os (schema : list StoreSchema.t) :
  Meta.triple (is_store c os) (EntryOpen.applySchema valid_key_path schema) (λ _, True).
Proof. apply triple_forEach. intros s _. apply createStore_is_store. Qed.

End EntryUpgrade.

(** The upgrade of [part_005] leaves every existing store exactly as it is,
    declared or not: it deletes no store, and for a store that exists it
    creates none of the indexes the declaration adds. *)
Theorem entry_open_leaves_existing_stores (valid_key_path : KeyPath → bool)
    (persisted : Meta.IDBDatabase) (version : nat) (schema : list StoreSchema.t)
    (c : string) (os : Meta.IDBObjectStore) :
  Meta.objectStores persisted !! c = Some os →
  Meta.objectStores (EntryOpen.open valid_key_path persisted version schema).1 !! c
  = Some os.
Proof.
  intros Hos. unfold EntryOpen.open, Meta.open.
  destruct (_ <? _); [done|]. destruct (_ =? _); [done|].
  unfold EntryOpen.onupgradeneeded.
  destruct (entry_applySchema_is_store valid_key_path c os schema
              (Meta.Tx (Meta.objectStores persisted) false) Hos) as [H1 _].
  destruct (EntryOpen.applySchema valid_key_path schema _) as [[e|[]] t'];
    cbn [snd] in H1.
  - by cbn.
  - destruct (Meta.aborted t'); [done|]. exact H1.
Qed.

Lemma entry_open_leaves_existing_stores_witness :
  ∃ os,
    Meta.objectStores Sample.v1 !! "users" = Some os
    ∧ Meta.objectStores (EntryOpen.open Sample.any_key_path Sample.v1 2 Sample.v2Schema).1
        !! "users" = Some os
    ∧ Meta.os_indexes os !! "by_city" = None
    ∧ is_Some (Meta.objectStores
                 (EntryOpen.open Sample.any_key_path Sample.v1 2 Sample.v2Schema).1
                 !! "products").
Proof.
  destruct (Meta.objectStores Sample.v1 !! "users") as [os|] eqn:Hos;
    [|vm_compute in Hos; discriminate].
  exists os. split; [reflexivity|]. split.
  - exact (entry_open_leaves_existing_stores Sample.any_key_path Sample.v1 2
             Sample.v2Schema "users" os Hos).
  - split.
    + vm_compute in Hos. injection Hos as <-. vm_compute. reflexivity.
    + vm_compute. eauto.
Defined.

(** ** More on the promise adapters *)

Section AdapterMore.
Context {E A : Type}.

Local Abbreviation state_after trace :=
  (foldl Core.deliver (Core.WriteState (E:=E) (A:=A) Pending Pending Pending) trace).

(** A settled [Promise.all] is not changed by later events. *)
Lemma both_settled_stays (trace more : list (Core.event A)) :
  Core.both (state_after trace) ≠ Pending →
  Core.both (state_after (trace ++ more)) = Core.both (state_after trace).
Proof.
  intros Hs. induction more as [|ev more IH] using rev_ind.
  - by rewrite app_nil_r.
  - rewrite app_assoc, foldl_snoc. rewrite <- IH in Hs |- *.
    destruct (state_after (trace ++ more)) as [r t b]. cbn in Hs |- *.
    destruct b; [done|..]; by destruct ev, r, t.
Qed.

Lemma await_both_settled_stays (trace more : list (Core.event A)) :
  Core.await_both (E:=E) trace ≠ Pending →
  Core.await_both (trace ++ more) = Core.await_both trace.
Proof.
  unfold Core.await_both. intros Hs. rewrite both_settled_stays; [done|].
  intros Hp. by rewrite Hp in Hs.
Qed.

End AdapterMore.



(** When the request of a write operation fails, the operation is rejected
    with the error of the request, whatever the transaction reports after
    it. *)
Theorem write_rejects_with_request_error {E K D A : Type}
    (eng : Core.Writes (E:=E) K D) (op : Core.write_op K D A)
    (error : E) (rest : list (Core.event A)) :
  Core.response eng op = inr (Core.RequestError error :: rest) →
  Core.call eng op = Rejected (Core.DOMError error).
Proof.
  intros Hresp.
  assert (Core.call eng op = Core.write (Core.response eng op)) as ->
    by (by destruct op).
  rewrite Hresp. cbn [Core.write].
  change (Core.RequestError error :: rest) with ([Core.RequestError (A:=A) error] ++ rest).
  by rewrite await_both_settled_stays.
Qed.

Lemma write_rejects_with_request_error_witness :
  let eng : Core.Writes (E:=string) nat string :=
    {| Core.on_add := λ _ _, inr [Core.RequestError "ConstraintError"%string;
                                  Core.TransactionError None;
                                  Core.Abort (Some "AbortError"%string)];
       Core.on_put := λ _ _, inr [];
       Core.on_delete := λ _ _, inr [];
       Core.on_clear := λ _, inr [] |} in
  Core.response eng (Core.Add "users" "Bob")
    = inr [Core.RequestError "ConstraintError"%string; Core.TransactionError None;
           Core.Abort (Some "AbortError"%string)]
  ∧ Core.call eng (Core.Add "users" "Bob")
    = Rejected (Core.DOMError "ConstraintError"%string).
Proof.
  intros eng. split; [reflexivity|].
  apply (write_rejects_with_request_error eng (Core.Add "users" "Bob")
           "ConstraintError"%string
           [Core.TransactionError None; Core.Abort (Some "AbortError"%string)]).
  reflexivity.
Defined.

(** When the request of a write operation succeeds and its transaction
    then completes, the operation resolves with the result of the request;
    when the transaction aborts instead, it is rejected with the error of
    the transaction, or with [Error('Transaction aborted')] when the
    transaction has none. *)
Theorem write_follows_transaction_outcome {E K D A : Type}
    (eng : Core.Writes (E:=E) K D) (op : Core.write_op K D A)
    (x : A) (rest : list (Core.event A)) :
  (Core.response eng op = inr (Core.RequestSuccess x :: Core.Complete :: rest) →
   Core.call eng op = Resolved x)
  ∧ (∀ error,
       Core.response eng op = inr (Core.RequestSuccess x :: Core.Abort error :: rest) →
       Core.call eng op
       = Rejected (from_option Core.DOMError (Core.Error "Transaction aborted") error)).
Proof.
  assert (Core.call eng op = Core.write (Core.response eng op)) as ->
    by (by destruct op).
  split.
  - intros ->. cbn [Core.write].
    change (Core.RequestSuccess x :: Core.Complete :: rest)
      with ([Core.RequestSuccess (E:=E) x; Core.Complete] ++ rest).
    by rewrite await_both_settled_stays.
  - intros error ->. cbn [Core.write].
    change (Core.RequestSuccess x :: Core.Abort error :: rest)
      with ([Core.RequestSuccess x; Core.Abort error] ++ rest).
    by rewrite await_both_settled_stays.
Qed.

Lemma write_follows_transaction_outcome_witness :
  Core.response Sample.healthy (Core.Put "users" "Alice")
    = inr [Core.RequestSuccess 1; Core.Complete]
  ∧ Core.call Sample.healthy (Core.Put "users" "Alice") = Resolved 1
  ∧ Core.response Sample.full_disk (Core.Put "users" "Alice")
    = inr [Core.RequestSuccess 1; Core.Abort (Some "QuotaExceededError"%string)]
  ∧ Core.call Sample.full_disk (Core.Put "users" "Alice")
    = Rejected (Core.DOMError "QuotaExceededError"%string).
Proof.
  split; [reflexivity|]. split.
  - apply (proj1 (write_follows_transaction_outcome Sample.healthy
                    (Core.Put "users" "Alice") 1 [])). reflexivity.
  - split; [reflexivity|].
    apply (proj2 (write_follows_transaction_outcome Sample.full_disk
                    (Core.Put "users" "Alice") 1 [])
             (Some "QuotaExceededError"%string)).
    reflexivity.
Defined.

(** ** The write operations of [part_005] *)

Lemma request_only_settled_stays {E A : Type} (trace more : list (Core.event (E:=E) A)) :
  Entry.request_only trace ≠ Pending →
  Entry.request_only (trace ++ more) = Entry.request_only trace.
Proof.
  unfold Entry.request_only. intros Hs. rewrite foldl_app.
  induction more as [|ev more IH] using rev_ind; [done|].
  rewrite foldl_snoc, IH. by destruct (foldl _ Pending trace), ev.
Qed.

(** A write operation of [part_005] resolves with the result of its request
    as soon as the request succeeds; an abort of the transaction after that
    is not reported. *)
Theorem entry_write_ignores_transaction {E K D : Type}
    (eng : Core.Writes (E:=E) K D) (storeName : string) (data : D) (key x : K)
    (rest : list (Core.event K)) (rest' : list (Core.event unit)) :
  (Core.on_add eng storeName data = inr (Core.RequestSuccess x :: rest) →
   Entry.add eng storeName data = Resolved x)
  ∧ (Core.on_put eng storeName data = inr (Core.RequestSuccess x :: rest) →
     Entry.put eng storeName data = Resolved x)
  ∧ (Core.on_delete eng storeName key = inr (Core.RequestSuccess () :: rest') →
     Entry.delete eng storeName key = Resolved ())
  ∧ (Core.on_clear eng storeName = inr (Core.RequestSuccess () :: rest') →
     Entry.clear eng storeName = Resolved ()).
Proof.
  assert (∀ A (y : A) (more : list (Core.event (E:=E) A)),
            Entry.request_only (Core.RequestSuccess y :: more) = Resolved y) as Hreq.
  { intros A y more.
    change (Core.RequestSuccess y :: more) with ([Core.RequestSuccess (E:=E) y] ++ more).
    by rewrite request_only_settled_stays. }
  unfold Entry.add, Entry.put, Entry.delete, Entry.clear.
  repeat split; intros ->; apply Hreq.
Qed.

Lemma entry_write_ignores_transaction_witness :
  Core.on_add Sample.full_disk "users" "Alice"
    = inr [Core.RequestSuccess 1; Core.Abort (Some "QuotaExceededError"%string)]
  ∧ Entry.add Sample.full_disk "users" "Alice" = Resolved 1.
Proof.
  split; [reflexivity|].
  apply (proj1 (entry_write_ignores_transaction Sample.full_disk "users" "Alice" 1 1
                  [Core.Abort (Some "QuotaExceededError"%string)] [])).
  reflexivity.
Defined.

(** ** A declaration that upgrades without an exception *)

